(** * The render callback of [macos_audiounit.c]

    A shallow embedding of [callback], the function the audio unit pulls
    samples from, and of the [AudioContext] it reads and updates.

    The callback computes with [Float64] and [Float32] values and calls the
    C library's [sinf].  The embedding is written once over an interface of
    those operations ([Arith]) and instantiated twice:

    - [Binary64]: IEEE-754 binary64 arithmetic as the compiled program
      performs it (Rocq's primitive floats), with binary32 values kept as
      the binary64 values that are representable in binary32;
    - [Ideal]: exact arithmetic over the real numbers, with the real sine.

    [int] arithmetic and the stores into the output buffer are checked: a
    signed overflow or a store outside the buffer is undefined behaviour in
    C and is a [Fault] here. *)

From stdpp Require Import base list strings.
From Stdlib Require Import ZArith Lia Reals Lra.
From Stdlib Require Import PrimFloat FloatOps SpecFloat FloatAxioms.

Local Open Scope Z_scope.

(** ** Undefined behaviour as an error *)

Inductive fault : Set :=
| SignedOverflow   (* an [int] operation left the range of [int] *)
| OutOfBounds.     (* a store outside the array [mData] points to *)

Inductive outcome (A : Type) : Type :=
| Done (a : A)
| Fault (f : fault).

Arguments Done {A} a.
Arguments Fault {A} f.

Definition bind {A B : Type} (m : outcome A) (k : A -> outcome B) : outcome B :=
  match m with
  | Done a => k a
  | Fault f => Fault f
  end.

Notation "'let!' x ':=' m 'in' k" := (bind m (fun x => k))
  (at level 10, x name, m at level 100, k at level 200).

(** ** Machine integers *)

Definition INT_MIN : Z := -2147483648.
Definition INT_MAX : Z := 2147483647.
Definition UINT32_MAX : Z := 4294967295.

Definition in_int (z : Z) : bool := (INT_MIN <=? z) && (z <=? INT_MAX).

Definition int_add (a b : Z) : outcome Z :=
  if in_int (a + b) then Done (a + b) else Fault SignedOverflow.

Definition int_mul (a b : Z) : outcome Z :=
  if in_int (a * b) then Done (a * b) else Fault SignedOverflow.

(** ** The floating-point operations the callback uses *)

Class Arith : Type := {
  Float64 : Type;
  Float32 : Type;
  (* the value of an integer or of a literal such as [1.0] as a [Float64] *)
  f64_of_int : Z -> Float64;
  M_PI : Float64;
  f64_add : Float64 -> Float64 -> Float64;
  f64_sub : Float64 -> Float64 -> Float64;
  f64_mul : Float64 -> Float64 -> Float64;
  f64_div : Float64 -> Float64 -> Float64;
  (* [f64_gt a b] is the C comparison [a > b] *)
  f64_gt : Float64 -> Float64 -> bool;
  (* the implicit conversion of a [double] argument to [float] *)
  f32_of_f64 : Float64 -> Float32;
  (* [sinf] of <math.h> *)
  sinf : Float32 -> Float32
}.

(** ** The data of the callback *)

Definition OSStatus : Set := Z.
Definition noErr : OSStatus := 0.

(** [AudioUnit] is a pointer; only its value matters here ([0] is [NULL]). *)
Definition AudioUnit : Set := Z.

Section Model.

Context {A : Arith}.

Record AudioContext : Type := {
  generator : Float64;
  samplerate : Float64;
  channels : Z;
  audioUnit : AudioUnit
}.

(** [context->generator = g] *)
Definition set_generator (context : AudioContext) (g : Float64) : AudioContext :=
  {| generator := g;
     samplerate := samplerate context;
     channels := channels context;
     audioUnit := audioUnit context |}.

(** The two fields of [AudioTimeStamp] a renderer usually looks at. *)
Record AudioTimeStamp : Type := {
  mSampleTime : Float64;
  mHostTime : Z
}.

(** [data[idx] = v], for [data] an array of [length data] samples. *)
Definition store (data : list Float32) (idx : Z) (v : Float32)
  : outcome (list Float32) :=
  if (0 <=? idx) && (idx <? Z.of_nat (length data))
  then Done (<[Z.to_nat idx := v]> data)
  else Fault OutOfBounds.

(** [const Float64 frequency = 440.0] *)
Definition frequency : Float64 := f64_of_int 440.

(** [samplePeriod = context->samplerate / frequency] *)
Definition samplePeriod (context : AudioContext) : Float64 :=
  f64_div (samplerate context) frequency.

(** Whether [generator + 1.0 > samplePeriod], the test of the [if]. *)
Definition wraps (period g : Float64) : bool :=
  f64_gt (f64_add g (f64_of_int 1)) period.

(** [generator += 1.0; if (generator > samplePeriod) generator -= samplePeriod;] *)
Definition advance (period g : Float64) : Float64 :=
  let g1 := f64_add g (f64_of_int 1) in
  if f64_gt g1 period then f64_sub g1 period else g1.

(** [sinf(2 * M_PI * generator / samplePeriod)]: the product and the quotient
    are formed in [Float64], left to right, and the argument is converted to
    [Float32] for [sinf]. *)
Definition sample_at (period g : Float64) : Float32 :=
  sinf (f32_of_f64
          (f64_div (f64_mul (f64_mul (f64_of_int 2) M_PI) g) period)).

(** [for (int j=0; j<channels; ++j) data[channels * i + j] = sample;]
    entered at [j] with [count] iterations to go. *)
Fixpoint channel_loop (count : nat) (nchannels i j : Z) (sample : Float32)
    (data : list Float32) : outcome (list Float32) :=
  match count with
  | O => Done data
  | S count' =>
      let! ci := int_mul nchannels i in
      let! idx := int_add ci j in
      let! data' := store data idx sample in
      let! j' := int_add j 1 in
      channel_loop count' nchannels i j' sample data'
  end.

(** [for (int i=0; i<inNumberFrames; ++i) { ... }] entered at [i] with
    [count] iterations to go.  The inner loop starts at [j = 0] and runs
    while [j < channels]: [Z.to_nat channels] times. *)
Fixpoint frame_loop (count : nat) (period : Float64) (nchannels i : Z)
    (g : Float64) (data : list Float32) : outcome (Float64 * list Float32) :=
  match count with
  | O => Done (g, data)
  | S count' =>
      let g' := advance period g in
      let sample := sample_at period g' in
      let! data' := channel_loop (Z.to_nat nchannels) nchannels i 0 sample data in
      let! i' := int_add i 1 in
      frame_loop count' period nchannels i' g' data'
  end.

(** [callback].  [inRefCon] is the context the pointer refers to, [ioData]
    the [Float32] array behind [ioData->mBuffers[0].mData]; the result holds
    the returned status, the context and the array as the call leaves them.
    [inNumberFrames] is a [UInt32]: the loop runs [inNumberFrames] times. *)
Definition callback (inRefCon : AudioContext) (ioActionFlags : Z)
    (inTimeStamp : AudioTimeStamp) (inBusNumber inNumberFrames : Z)
    (ioData : list Float32)
  : outcome (OSStatus * AudioContext * list Float32) :=
  let context := inRefCon in
  let g := generator context in
  let period := samplePeriod context in
  let nchannels := channels context in
  let! r := frame_loop (Z.to_nat inNumberFrames) period nchannels 0 g ioData in
  Done (noErr, set_generator context (fst r), snd r).

End Model.

Arguments AudioContext A : clear implicits.
Arguments AudioTimeStamp A : clear implicits.
Arguments Build_AudioContext A : clear implicits.
Arguments Build_AudioTimeStamp A : clear implicits.

(** ** What a well-formed call is

    The array handed to the callback has a slot for every sample of the
    request, and its size in bytes fits [AudioBuffer.mDataByteSize], a
    [UInt32]; a [Float32] takes four bytes. *)

Definition adequate {A : Arith} (context : AudioContext A)
    (inNumberFrames : Z) (ioData : list Float32) : Prop :=
  0 <= inNumberFrames /\
  inNumberFrames * channels context <= Z.of_nat (length ioData) /\
  4 * Z.of_nat (length ioData) <= UINT32_MAX.

(** ** The reference algorithm, as the specification words it

    For each frame in order: the phase is incremented by 1; the period is
    subtracted once if the phase exceeds it; the frame's value is the sine
    of [2 pi phase / P]; that value goes to every channel slot of the
    frame. *)

Section Reference.

Context {A : Arith}.

Fixpoint reference_phase (P : Float64) (frames : nat) (phase : Float64)
  : Float64 :=
  match frames with
  | O => phase
  | S frames' =>
      let phase := f64_add phase (f64_of_int 1) in
      let phase := if f64_gt phase P then f64_sub phase P else phase in
      reference_phase P frames' phase
  end.

Fixpoint reference_buffer (P : Float64) (channelCount frames : nat)
    (phase : Float64) : list Float32 :=
  match frames with
  | O => []
  | S frames' =>
      let phase := f64_add phase (f64_of_int 1) in
      let phase := if f64_gt phase P then f64_sub phase P else phase in
      let value :=
        sinf (f32_of_f64
                (f64_div (f64_mul (f64_mul (f64_of_int 2) M_PI) phase) P)) in
      replicate channelCount value
        ++ reference_buffer P channelCount frames' phase
  end.

(** How many of the frames subtracted the period. *)
Fixpoint wrap_count (P : Float64) (frames : nat) (phase : Float64) : nat :=
  match frames with
  | O => O
  | S frames' =>
      ((if wraps P phase then 1 else 0)
       + wrap_count P frames' (advance P phase))%nat
  end.

End Reference.

(** ** A playback session

    The backend pulls the samples of a session in requests of its own
    choosing, each with its own flags, time stamp, bus and array, and the
    context left by one call is the context of the next.  The stream of the
    session is what the calls stored in the slots they were asked for, in
    the order of the calls. *)

Section Session.

Context {A : Arith}.

Record RenderRequest : Type := {
  req_flags : Z;
  req_time : AudioTimeStamp A;
  req_bus : Z;
  req_frames : Z;
  req_data : list Float32
}.

Definition requested_slots (context : AudioContext A) (r : RenderRequest)
  : nat :=
  Z.to_nat (req_frames r * channels context).

Fixpoint render_session (context : AudioContext A) (reqs : list RenderRequest)
  : outcome (AudioContext A * list Float32) :=
  match reqs with
  | [] => Done (context, [])
  | r :: rest =>
      let! res := callback context (req_flags r) (req_time r) (req_bus r)
                    (req_frames r) (req_data r) in
      let context' := snd (fst res) in
      let! tail := render_session context' rest in
      Done (fst tail, take (requested_slots context r) (snd res) ++ snd tail)
  end.

Fixpoint total_frames (reqs : list RenderRequest) : Z :=
  match reqs with
  | [] => 0
  | r :: rest => req_frames r + total_frames rest
  end.

End Session.

Arguments RenderRequest A : clear implicits.
Arguments Build_RenderRequest A : clear implicits.

(** ** What a call lets its caller observe

    The fields of the context the samples are generated from, and the
    result of a call with the audio-unit handle left out. *)

Section Observation.

Context {A : Arith}.

Definition generation_state (context : AudioContext A)
  : Float64 * Float64 * Z :=
  (generator context, samplerate context, channels context).


End Observation.

(** ** Starting and stopping: [startAudio], [stopAudio], [main]

    The functions around the callback talk to the audio-unit API, print,
    install a signal handler and sleep.  Every such call is an [event]; a
    run appends its events to a log, and what the operating system answers
    to a call is a function of the log so far ([OS]).  The constants of the
    API are kept by name: their values are in headers that are not part of
    the repository. *)

Inductive OSType : Set :=
| kAudioUnitType_Output
| kAudioUnitSubType_DefaultOutput
| kAudioUnitManufacturer_Apple.

Inductive AudioFormatID : Set := kAudioFormatLinearPCM.

Inductive AudioFormatFlags : Set := kAudioFormatFlagIsFloat.

Inductive AudioUnitPropertyID : Set :=
| kAudioUnitProperty_SetRenderCallback
| kAudioUnitProperty_StreamFormat.

Inductive AudioUnitScope : Set := kAudioUnitScope_Input.

Inductive Signal : Set := SIGINT.

(** The functions of the program whose address is handed out. *)
Inductive Proc : Set :=
| proc_callback
| proc_handleStopSignal.

Record AudioComponentDescription : Set := {
  componentType : OSType;
  componentSubType : OSType;
  componentManufacturer : OSType;
  componentFlags : Z;
  componentFlagsMask : Z
}.

(** [inputProcRefCon] is a pointer: the address of the context. *)
Record AURenderCallbackStruct : Set := {
  inputProc : Proc;
  inputProcRefCon : Z
}.

Definition EXIT_SUCCESS : Z := 0.
Definition EXIT_FAILURE : Z := 1.

Definition fourBytesPerFloat : Z := 4.
Definition eightBitsPerByte : Z := 8.

(** The conversion of an [int] to [UInt32]. *)
Definition to_UInt32 (z : Z) : Z := z mod (UINT32_MAX + 1).

(** [handleStopSignal]: [shouldStop = true]. *)
Definition handleStopSignal (shouldStop : bool) : bool := true.

Section Lifecycle.

Context {A : Arith}.

(** The fields of [AudioStreamBasicDescription] that [startAudio] sets. *)
Record AudioStreamBasicDescription : Type := {
  mSampleRate : Float64;
  mFormatID : AudioFormatID;
  mFormatFlags : AudioFormatFlags;
  mBytesPerPacket : Z;
  mFramesPerPacket : Z;
  mBytesPerFrame : Z;
  mChannelsPerFrame : Z;
  mBitsPerChannel : Z
}.

Inductive PropertyData : Type :=
| RenderCallback (input : AURenderCallbackStruct)
| StreamFormat (streamFormat : AudioStreamBasicDescription).

(** A call the program makes, with its arguments. *)
Inductive event : Type :=
| AudioComponentFindNext (inComponent : Z) (inDesc : AudioComponentDescription)
| AudioComponentInstanceNew (inComponent : Z)
| AudioUnitSetProperty (inUnit : AudioUnit) (inID : AudioUnitPropertyID)
    (inScope : AudioUnitScope) (inElement : Z) (inData : PropertyData)
| AudioUnitInitialize (inUnit : AudioUnit)
| AudioOutputUnitStart (ci : AudioUnit)
| AudioOutputUnitStop (ci : AudioUnit)
| printf (text : string)
| signal (sig : Signal) (handler : Proc)
| usleep (usec : Z).

(** What the operating system answers, given the calls made so far: the
    component [AudioComponentFindNext] returns ([0] is [NULL]); the status
    [AudioComponentInstanceNew] returns and the handle it leaves in
    [*outInstance], which held the third argument before; the status of any
    other call. *)
Record OS : Type := {
  found_component : list event -> AudioComponentDescription -> Z;
  new_instance : list event -> Z -> AudioUnit -> OSStatus * AudioUnit;
  status_of : list event -> event -> OSStatus
}.

(** A computation that makes calls and may run into undefined behaviour. *)
Definition Run (X : Type) : Type := list event -> outcome (X * list event).

Definition ret {X : Type} (x : X) : Run X := fun log => Done (x, log).

Definition and_then {X Y : Type} (m : Run X) (k : X -> Run Y) : Run Y :=
  fun log =>
    match m log with
    | Done (x, log') => k x log'
    | Fault f => Fault f
    end.

(** Make the call [e]; its result is what [answer] says for the log. *)
Definition call {X : Type} (e : event) (answer : list event -> X) : Run X :=
  fun log => Done (answer log, log ++ [e]).

Definition checked {X : Type} (m : outcome X) : Run X :=
  fun log =>
    match m with
    | Done x => Done (x, log)
    | Fault f => Fault f
    end.

Notation "'let*' x ':=' m 'in' k" := (and_then m (fun x => k))
  (at level 10, x name, m at level 100, k at level 200).

Definition call_status (os : OS) (e : event) : Run OSStatus :=
  call e (fun log => status_of os log e).

(** Whether the operating system granted the call [e], made when the log
    was [log]: a component other than [NULL], or the status [noErr].
    [held] is what [*outInstance] held before the call. *)
Definition succeeded (os : OS) (held : AudioUnit) (log : list event)
    (e : event) : bool :=
  match e with
  | AudioComponentFindNext _ inDesc =>
      negb (found_component os log inDesc =? 0)
  | AudioComponentInstanceNew inComponent =>
      fst (new_instance os log inComponent held) =? 0
  | _ => status_of os log e =? 0
  end.

(** [context->audioUnit = u] *)
Definition set_audioUnit (context : AudioContext A) (u : AudioUnit)
  : AudioContext A :=
  {| generator := generator context;
     samplerate := samplerate context;
     channels := channels context;
     audioUnit := u |}.

(** [startAudio].  [context_ptr] is the pointer it is given and [context]
    what it points to; the result is the returned [int] and the context as
    the call leaves it. *)
Definition startAudio (os : OS) (context_ptr : Z) (context : AudioContext A)
  : Run (Z * AudioContext A) :=
  let defaultOutputDescription :=
    {| componentType := kAudioUnitType_Output;
       componentSubType := kAudioUnitSubType_DefaultOutput;
       componentManufacturer := kAudioUnitManufacturer_Apple;
       componentFlags := 0;
       componentFlagsMask := 0 |} in
  let* defaultOutput :=
    call (AudioComponentFindNext 0 defaultOutputDescription)
      (fun log => found_component os log defaultOutputDescription) in
  if defaultOutput =? 0 then ret (1, context) else
  let* created :=
    call (AudioComponentInstanceNew defaultOutput)
      (fun log => new_instance os log defaultOutput (audioUnit context)) in
  let context := set_audioUnit context (snd created) in
  if negb (fst created =? 0) then ret (2, context) else
  let input :=
    {| inputProc := proc_callback; inputProcRefCon := context_ptr |} in
  let* status :=
    call_status os
      (AudioUnitSetProperty (audioUnit context)
         kAudioUnitProperty_SetRenderCallback kAudioUnitScope_Input 0
         (RenderCallback input)) in
  if negb (status =? 0) then ret (3, context) else
  let* bytesPerPacket :=
    checked (int_mul (channels context) fourBytesPerFloat) in
  let* bytesPerFrame :=
    checked (int_mul (channels context) fourBytesPerFloat) in
  let* bitsPerChannel :=
    checked (int_mul fourBytesPerFloat eightBitsPerByte) in
  let streamFormat :=
    {| mSampleRate := samplerate context;
       mFormatID := kAudioFormatLinearPCM;
       mFormatFlags := kAudioFormatFlagIsFloat;
       mBytesPerPacket := to_UInt32 bytesPerPacket;
       mFramesPerPacket := 1;
       mBytesPerFrame := to_UInt32 bytesPerFrame;
       mChannelsPerFrame := to_UInt32 (channels context);
       mBitsPerChannel := to_UInt32 bitsPerChannel |} in
  let* status :=
    call_status os
      (AudioUnitSetProperty (audioUnit context)
         kAudioUnitProperty_StreamFormat kAudioUnitScope_Input 0
         (StreamFormat streamFormat)) in
  if negb (status =? 0) then ret (4, context) else
  let* status := call_status os (AudioUnitInitialize (audioUnit context)) in
  if negb (status =? 0) then ret (5, context) else
  let* status := call_status os (AudioOutputUnitStart (audioUnit context)) in
  if negb (status =? 0) then ret (6, context) else
  ret (0, context).

(** [stopAudio]; the status of [AudioOutputUnitStop] is not looked at. *)
Definition stopAudio (os : OS) (context : AudioContext A)
  : Run (AudioContext A) :=
  if negb (audioUnit context =? 0) then
    let* ignored :=
      call_status os (AudioOutputUnitStop (audioUnit context)) in
    ret (set_audioUnit context 0)
  else ret context.

(** [while (!shouldStop) usleep(500000);].  [shouldStop] is volatile and is
    set by the signal handler: what each test of the loop reads is given
    from outside, one value per test.  The result tells whether the loop
    was left; it is not when the values run out before one is [true]. *)
Fixpoint wait_for_stop (reads : list bool) : Run bool :=
  match reads with
  | [] => ret false
  | true :: _ => ret true
  | false :: rest =>
      let* ignored := call (usleep 500000) (fun _ => tt) in
      wait_for_stop rest
  end.

Definition failed_to_start : string :=
  String.append "Failed to start audio playback"
    (String (Ascii.ascii_of_nat 10) EmptyString).

(** [main].  [context_ptr] is the address of its local [context] and
    [garbage] the indeterminate content of the field [audioUnit], which
    [main] does not initialise.  The result is the exit status, or [None]
    while [main] is still in its loop. *)
Definition main (os : OS) (context_ptr : Z) (garbage : AudioUnit)
    (reads : list bool) : Run (option Z) :=
  let context :=
    {| generator := f64_of_int 0;
       samplerate := f64_of_int 44100;
       channels := 2;
       audioUnit := garbage |} in
  let* started := startAudio os context_ptr context in
  let context := snd started in
  if negb (fst started =? 0) then
    let* ignored := call (printf failed_to_start) (fun _ => tt) in
    ret (Some EXIT_FAILURE)
  else
    let* ignored := call (signal SIGINT proc_handleStopSignal) (fun _ => tt) in
    let* left := wait_for_stop reads in
    if left then
      let* context := stopAudio os context in
      ret (Some EXIT_SUCCESS)
    else ret None.

End Lifecycle.

Arguments OS A : clear implicits.
Arguments event A : clear implicits.
Arguments Build_OS A : clear implicits.
Arguments AudioStreamBasicDescription A : clear implicits.
Arguments Build_AudioStreamBasicDescription A : clear implicits.

(** ** IEEE-754 arithmetic: the program as compiled *)

(** Round to nearest, ties to even, into binary32 (24 bits of precision,
    exponents below 128); the result is again held as a binary64 value. *)
Definition round_binary32 (x : float) : float :=
  match Prim2SF x with
  | S754_finite s m e => SF2Prim (binary_round 24 128 s m e)
  | _ => x
  end.

Definition float_of_Z (z : Z) : float :=
  match z with
  | Z0 => PrimFloat.zero
  | Zpos _ => PrimFloat.of_uint63 (Uint63Axioms.of_Z z)
  | Zneg p => PrimFloat.opp (PrimFloat.of_uint63 (Uint63Axioms.of_Z (Zpos p)))
  end.

(** [M_PI] of <math.h>: 3.14159265358979323846264338327950288 *)
Definition float_M_PI : float := 0x1.921fb54442d18p+1%float.

(** [Binary64 libm_sinf] is binary64 arithmetic together with a C library
    whose [sinf] is [libm_sinf]. *)
Definition Binary64 (libm_sinf : float -> float) : Arith := {|
  Float64 := float;
  Float32 := float;
  f64_of_int := float_of_Z;
  M_PI := float_M_PI;
  f64_add := PrimFloat.add;
  f64_sub := PrimFloat.sub;
  f64_mul := PrimFloat.mul;
  f64_div := PrimFloat.div;
  f64_gt := fun a b => PrimFloat.ltb b a;
  f32_of_f64 := round_binary32;
  sinf := libm_sinf
|}.

(** The C library is not part of the repository.  To run the model on
    examples, [sinf_poly] stands in for its [sinf]: the Taylor polynomial of
    degree 15 of the sine, after the arguments above pi are brought down by
    one turn, evaluated in binary64 and rounded to binary32.  No theorem
    below depends on the choice. *)
Definition sinf_poly (x : float) : float :=
  let y := if PrimFloat.ltb float_M_PI x
           then PrimFloat.sub x (PrimFloat.mul 2 float_M_PI) else x in
  let y2 := PrimFloat.mul y y in
  let c (k : Z) := PrimFloat.div 1 (float_of_Z k) in
  let h := (c 1307674368000) in
  let h := PrimFloat.sub (c 6227020800) (PrimFloat.mul y2 h) in
  let h := PrimFloat.sub (c 39916800) (PrimFloat.mul y2 h) in
  let h := PrimFloat.sub (c 362880) (PrimFloat.mul y2 h) in
  let h := PrimFloat.sub (c 5040) (PrimFloat.mul y2 h) in
  let h := PrimFloat.sub (c 120) (PrimFloat.mul y2 h) in
  let h := PrimFloat.sub (c 6) (PrimFloat.mul y2 h) in
  let h := PrimFloat.sub 1 (PrimFloat.mul y2 h) in
  round_binary32 (PrimFloat.mul y h).

Definition Machine : Arith := Binary64 sinf_poly.



(** ** Finite non-negative binary64 numbers as integers

    A finite positive binary64 number with mantissa [m] and exponent [e] is
    [m * 2^e]; as every exponent is at least -1074, it is measured in units
    of [2^-1074], as the integer [weight m e]. *)
Definition weight (m : positive) (e : Z) : Z := Zpos m * 2 ^ (e + 1074).

(** The value of a finite non-negative number, in units of [2^-1074];
    [None] for a negative number, an infinity and a NaN. *)
Definition units (x : spec_float) : option Z :=
  match x with
  | S754_zero _ => Some 0
  | S754_finite false m e => Some (weight m e)
  | _ => None
  end.

Definition float_units (x : float) : option Z := units (Prim2SF x).

(** The record [r] holds [M] shifted right by [k] digits. *)
Definition shifted (M k : Z) (r : shr_record) : Prop :=
  shr_m r = M / 2 ^ k /\
  (M mod 2 ^ k = 0 -> shr_r r = false /\ shr_s r = false).

(** A number that is not negative: a zero, a positive finite number or
    the positive infinity. *)
Definition not_negative (x : spec_float) : bool :=
  match x with
  | S754_zero _ | S754_finite false _ _ | S754_infinity false => true
  | _ => false
  end.

(** ** Exact arithmetic: the program as the specification reads it *)

Definition Rgtb (a b : R) : bool := if Rgt_dec a b then true else false.

Definition Ideal : Arith := {|
  Float64 := R;
  Float32 := R;
  f64_of_int := IZR;
  M_PI := PI;
  f64_add := Rplus;
  f64_sub := Rminus;
  f64_mul := Rmult;
  f64_div := Rdiv;
  f64_gt := Rgtb;
  f32_of_f64 := fun x => x;
  sinf := sin
|}.

(** ** Examples: the machine model run on the set-up of [main] *)

(** A stereo context, as [main] builds it, for any [sinf] of the library. *)
Definition binary64_context (libm_sinf : float -> float) (phase rate : float)
  : AudioContext (Binary64 libm_sinf) :=
  Build_AudioContext (Binary64 libm_sinf) phase rate 2 0.

Definition binary64_time (libm_sinf : float -> float)
  : AudioTimeStamp (Binary64 libm_sinf) :=
  Build_AudioTimeStamp (Binary64 libm_sinf) 0%float 0.

(** [context.generator = 0; context.samplerate = 44100; context.channels = 2] *)
Definition main_context : AudioContext Machine :=
  binary64_context sinf_poly 0%float 44100%float.

Definition silence (slots : nat) : list float := replicate slots 0%float.

Definition no_time : AudioTimeStamp Machine := binary64_time sinf_poly.

(** A request for [frames] stereo frames into a buffer of just that size. *)
Definition stereo_request (frames : Z) : RenderRequest Machine :=
  Build_RenderRequest Machine 0 no_time 0 frames
    (silence (Z.to_nat (2 * frames))).

(** The same set-up in exact arithmetic. *)
Definition ideal_context (phase rate : R) : AudioContext Ideal :=
  Build_AudioContext Ideal phase rate 2 0.

Definition ideal_time : AudioTimeStamp Ideal :=
  Build_AudioTimeStamp Ideal 0%R 0.

Definition ideal_silence (slots : nat) : list R := replicate slots 0%R.

(** An operating system that grants every request: the default output is
    component 7, its instance is the unit 42. *)
Definition willing_os : OS Machine :=
  Build_OS Machine (fun _ _ => 7) (fun _ _ _ => (0, 42)) (fun _ _ => 0).

(** One whose audio unit does not initialise. *)
Definition os_failing_initialize : OS Machine :=
  Build_OS Machine (fun _ _ => 7) (fun _ _ _ => (0, 42))
    (fun _ e => match e with AudioUnitInitialize _ => -50 | _ => 0 end).

(** The stream format of a stereo context at 44100 frames per second. *)
Definition stereo_format : AudioStreamBasicDescription Machine :=
  Build_AudioStreamBasicDescription Machine 44100%float
    kAudioFormatLinearPCM kAudioFormatFlagIsFloat 8 1 8 2 32.

(** The description [startAudio] asks the default output with. *)
Definition default_output : AudioComponentDescription :=
  {| componentType := kAudioUnitType_Output;
     componentSubType := kAudioUnitSubType_DefaultOutput;
     componentManufacturer := kAudioUnitManufacturer_Apple;
     componentFlags := 0;
     componentFlagsMask := 0 |}.

(** The calls of [startAudio] up to the one that initialises, for a stereo
    context kept at the address 4096. *)
Definition calls_up_to_initialize : list (event Machine) :=
  [AudioComponentFindNext 0 default_output;
   AudioComponentInstanceNew 7;
   AudioUnitSetProperty 42 kAudioUnitProperty_SetRenderCallback
     kAudioUnitScope_Input 0
     (RenderCallback {| inputProc := proc_callback; inputProcRefCon := 4096 |});
   AudioUnitSetProperty 42 kAudioUnitProperty_StreamFormat
     kAudioUnitScope_Input 0 (StreamFormat stereo_format);
   AudioUnitInitialize 42].

(** The context of [main] once the unit 42 is in it. *)
Definition started_context : AudioContext Machine :=
  Build_AudioContext Machine 0%float 44100%float 2 42.

(** Three frames into a stereo buffer. *)
Example three_frames :
  callback main_context 0 no_time 0 3 (silence 6)
  = Done (noErr, Build_AudioContext Machine 3%float 44100%float 2 0,
          [0x1.009b88p-4%float; 0x1.009b88p-4%float;
           0x1.001a7ep-3%float; 0x1.001a7ep-3%float;
           0x1.7ee5a4p-3%float; 0x1.7ee5a4p-3%float]).
Proof. reflexivity. Qed.

(** ** Properties that hold in every arithmetic *)

Lemma int_add_in_range a b :
  INT_MIN <= a + b <= INT_MAX -> int_add a b = Done (a + b).
Proof.
  intros Hr; unfold int_add, in_int.
  destruct (Z.leb_spec INT_MIN (a + b)), (Z.leb_spec (a + b) INT_MAX);
    try lia; reflexivity.
Qed.

Lemma int_mul_in_range a b :
  INT_MIN <= a * b <= INT_MAX -> int_mul a b = Done (a * b).
Proof.
  intros Hr; unfold int_mul, in_int.
  destruct (Z.leb_spec INT_MIN (a * b)), (Z.leb_spec (a * b) INT_MAX);
    try lia; reflexivity.
Qed.

Section Generic.

Context {A : Arith}.

Implicit Types (context : AudioContext A) (data pre mid post : list Float32).
Implicit Types (sample : Float32) (g period : Float64).

Lemma set_generator_same context :
  set_generator context (generator context) = context.
Proof. destruct context; reflexivity. Qed.

(** A store at the slot right after [pre] replaces that slot only. *)
Lemma store_after pre (old : Float32) post idx sample :
  idx = Z.of_nat (length pre) ->
  store (pre ++ old :: post) idx sample = Done (pre ++ sample :: post).
Proof.
  intros ->; unfold store.
  rewrite length_app; cbn [length].
  destruct (Z.leb_spec 0 (Z.of_nat (length pre))); [|lia].
  destruct (Z.ltb_spec (Z.of_nat (length pre))
              (Z.of_nat (length pre + S (length post)))); [|lia].
  cbn [andb]; rewrite Nat2Z.id.
  rewrite insert_app_r_alt by lia.
  rewrite Nat.sub_diag; reflexivity.
Qed.

(** The inner loop fills the [count] slots after [pre] with the sample. *)
Lemma channel_loop_fills count : forall nchannels i j sample pre mid post,
  0 <= j ->
  0 <= nchannels * i ->
  Z.of_nat (length pre) = nchannels * i + j ->
  length mid = count ->
  nchannels * i + j + Z.of_nat count <= INT_MAX ->
  channel_loop count nchannels i j sample (pre ++ mid ++ post)
  = Done (pre ++ replicate count sample ++ post).
Proof.
  induction count as [|count IH]; intros nchannels i j sample pre mid post
    Hj Hi Hpre Hmid Hmax.
  - destruct mid; [reflexivity | discriminate].
  - destruct mid as [|old mid]; [discriminate|].
    injection Hmid as Hmid.
    cbn [channel_loop].
    rewrite int_mul_in_range by (unfold INT_MIN; lia); cbn [bind].
    rewrite int_add_in_range by (unfold INT_MIN; lia); cbn [bind].
    change ((old :: mid) ++ post) with (old :: mid ++ post).
    rewrite (store_after pre old (mid ++ post)) by lia; cbn [bind].
    rewrite int_add_in_range by (unfold INT_MIN; lia); cbn [bind].
    change (pre ++ sample :: mid ++ post)
      with (pre ++ [sample] ++ mid ++ post).
    rewrite (app_assoc pre [sample]).
    rewrite IH; try lia.
    + rewrite <- app_assoc; reflexivity.
    + rewrite length_app; cbn [length]; lia.
Qed.

(** The outer loop advances the phase as the reference algorithm does and
    fills the [count] frames after [pre] with the reference samples. *)
Lemma frame_loop_refines count : forall period nchannels i g pre mid post,
  0 < nchannels ->
  0 <= i ->
  Z.of_nat (length pre) = nchannels * i ->
  Z.of_nat (length mid) = Z.of_nat count * nchannels ->
  nchannels * (i + Z.of_nat count) <= INT_MAX ->
  frame_loop count period nchannels i g (pre ++ mid ++ post)
  = Done (reference_phase period count g,
          pre ++ reference_buffer period (Z.to_nat nchannels) count g ++ post).
Proof.
  induction count as [|count IH]; intros period nchannels i g pre mid post
    Hch Hi Hpre Hmid Hmax.
  - destruct mid; [reflexivity | cbn in Hmid; lia].
  - cbn [frame_loop reference_phase reference_buffer].
    fold (advance period g).
    fold (sample_at period (advance period g)).
    set (g' := advance period g).
    set (sample := sample_at period g').
    rewrite <- (take_drop (Z.to_nat nchannels) mid), <- (app_assoc _ _ post).
    rewrite (channel_loop_fills (Z.to_nat nchannels) nchannels i 0 sample);
      try nia.
    2: { rewrite length_take; nia. }
    cbn [bind].
    rewrite int_add_in_range by (unfold INT_MIN; nia); cbn [bind].
    rewrite (app_assoc pre).
    rewrite IH; try nia.
    + rewrite <- !app_assoc; reflexivity.
    + rewrite length_app, length_replicate; nia.
    + rewrite length_drop; nia.
Qed.

(** What a well-formed call returns. *)
Lemma callback_refines context flags time bus frames data :
  0 < channels context ->
  adequate context frames data ->
  callback context flags time bus frames data
  = Done (noErr,
          set_generator context
            (reference_phase (samplePeriod context) (Z.to_nat frames)
               (generator context)),
          reference_buffer (samplePeriod context)
            (Z.to_nat (channels context)) (Z.to_nat frames)
            (generator context)
            ++ drop (Z.to_nat (frames * channels context)) data).
Proof.
  intros Hch (Hn & Hfit & Hbytes); unfold callback.
  set (slots := Z.to_nat (frames * channels context)).
  pose proof (frame_loop_refines (Z.to_nat frames) (samplePeriod context)
                (channels context) 0 (generator context) []
                (take slots data) (drop slots data)) as Hloop.
  cbn [app length] in Hloop.
  rewrite take_drop in Hloop.
  rewrite Hloop; [reflexivity | lia | lia | lia | | ].
  - rewrite length_take; subst slots; lia.
  - unfold UINT32_MAX, INT_MAX in *; nia.
Qed.

(** *** The reference algorithm, frame by frame *)

Lemma reference_phase_step period n g :
  reference_phase period (S n) g = reference_phase period n (advance period g).
Proof. reflexivity. Qed.

Lemma reference_buffer_step period ch n g :
  reference_buffer period ch (S n) g
  = replicate ch (sample_at period (advance period g))
      ++ reference_buffer period ch n (advance period g).
Proof. reflexivity. Qed.

Lemma reference_phase_add period a : forall b g,
  reference_phase period (a + b) g
  = reference_phase period b (reference_phase period a g).
Proof.
  induction a as [|a IH]; intros b g; [reflexivity|].
  change (S a + b)%nat with (S (a + b)).
  rewrite !reference_phase_step; apply IH.
Qed.

Lemma reference_buffer_add period ch a : forall b g,
  reference_buffer period ch (a + b) g
  = reference_buffer period ch a g
      ++ reference_buffer period ch b (reference_phase period a g).
Proof.
  induction a as [|a IH]; intros b g; [reflexivity|].
  change (S a + b)%nat with (S (a + b)).
  rewrite !reference_buffer_step, reference_phase_step, IH.
  apply app_assoc.
Qed.

Lemma reference_buffer_length period ch n : forall g,
  length (reference_buffer period ch n g) = (n * ch)%nat.
Proof.
  induction n as [|n IH]; intros g; [reflexivity|].
  rewrite reference_buffer_step, length_app, length_replicate, IH.
  reflexivity.
Qed.

(** Slot [k] holds the sample of frame [k / ch]. *)
Lemma reference_buffer_lookup period ch n : forall g (k : nat),
  (k < n * ch)%nat ->
  reference_buffer period ch n g !! k
  = Some (sample_at period (reference_phase period (S (k / ch)) g)).
Proof.
  induction n as [|n IH]; intros g k Hk; [lia|].
  assert (ch <> O) as Hch by (intros ->; lia).
  rewrite reference_buffer_step, reference_phase_step.
  destruct (Nat.lt_ge_cases k ch) as [Hlt|Hge].
  - rewrite lookup_app_l by (rewrite length_replicate; exact Hlt).
    rewrite Nat.div_small by exact Hlt.
    apply lookup_replicate_2; exact Hlt.
  - rewrite lookup_app_r by (rewrite length_replicate; exact Hge).
    rewrite length_replicate, IH by lia.
    replace (k / ch)%nat with (S ((k - ch) / ch)); [reflexivity|].
    replace k with ((k - ch) + 1 * ch)%nat at 2 by lia.
    rewrite Nat.div_add by exact Hch; lia.
Qed.

(** Every sample of the reference buffer is a value of [sinf]. *)
Lemma reference_buffer_Forall (Q : Float32 -> Prop) period ch n :
  (forall x, Q (sinf x)) ->
  forall g, Forall Q (reference_buffer period ch n g).
Proof.
  intros HQ; induction n as [|n IH]; intros g; [constructor|].
  rewrite reference_buffer_step; apply Forall_app; split; [|apply IH].
  apply Forall_replicate, HQ.
Qed.

(** *** Sessions *)

Lemma total_frames_nonneg context (reqs : list (RenderRequest A)) :
  Forall (fun r => adequate context (req_frames r) (req_data r)) reqs ->
  0 <= total_frames reqs.
Proof.
  induction 1 as [|r reqs (Hr & _) _ IH]; cbn [total_frames]; lia.
Qed.

(** A session of well-formed requests renders the reference stream of all
    its frames and leaves the phase the reference algorithm reaches. *)
Lemma render_session_refines (reqs : list (RenderRequest A)) : forall context,
  0 < channels context ->
  Forall (fun r => adequate context (req_frames r) (req_data r)) reqs ->
  render_session context reqs
  = Done (set_generator context
            (reference_phase (samplePeriod context)
               (Z.to_nat (total_frames reqs)) (generator context)),
          reference_buffer (samplePeriod context)
            (Z.to_nat (channels context)) (Z.to_nat (total_frames reqs))
            (generator context)).
Proof.
  induction reqs as [|r reqs IH]; intros context Hch Hall.
  - cbn; rewrite set_generator_same; reflexivity.
  - inversion Hall as [|? ? Hr Hrest]; subst.
    pose proof (total_frames_nonneg _ _ Hrest) as Htot.
    pose proof Hr as (Hn & _).
    cbn [render_session total_frames].
    rewrite callback_refines by assumption; cbn [bind fst snd].
    rewrite IH by assumption; cbn [bind fst snd].
    unfold requested_slots.
    rewrite take_app_length'
      by (rewrite reference_buffer_length; cbn [set_generator channels]; nia).
    rewrite Z2Nat.inj_add by assumption.
    rewrite reference_phase_add, reference_buffer_add.
    reflexivity.
Qed.

End Generic.

(** ** The claims that hold in every arithmetic *)

Section GenericClaims.

Context {A : Arith}.

Implicit Types (context : AudioContext A) (data : list Float32).

(** C1: a session of well-formed requests whose frame counts sum to the
    frame count of one well-formed request renders the same stream and
    leaves the same context, phase included, as that one request does; and
    both do render. *)
Theorem chunking_invariance context (reqs : list (RenderRequest A))
    (single : RenderRequest A) :
  0 < channels context ->
  Forall (fun r => adequate context (req_frames r) (req_data r)) reqs ->
  adequate context (req_frames single) (req_data single) ->
  req_frames single = total_frames reqs ->
  exists context' stream,
    render_session context reqs = Done (context', stream) /\
    render_session context [single] = Done (context', stream).
Proof.
  intros Hch Hall Hone Hsum.
  eexists _, _; split.
  - apply render_session_refines; assumption.
  - assert (Forall (fun r => adequate context (req_frames r) (req_data r))
              [single]) as Hsingle by (constructor; [exact Hone | constructor]).
    rewrite (render_session_refines [single] context Hch Hsingle).
    cbn [total_frames]; rewrite Z.add_0_r, Hsum; reflexivity.
Qed.

(** C3: a well-formed call leaves in the buffer, frame after frame, what
    the reference algorithm computes for the period [P = samplerate / 440],
    each frame's value in all the slots of the frame, and leaves in the
    context the phase the reference algorithm reaches; the slots after
    those requested keep their content. *)
Theorem callback_computes_reference context flags time bus frames data :
  0 < channels context ->
  adequate context frames data ->
  exists context' out,
    callback context flags time bus frames data = Done (noErr, context', out)
    /\ generator context'
       = reference_phase (f64_div (samplerate context) (f64_of_int 440))
           (Z.to_nat frames) (generator context)
    /\ take (Z.to_nat (frames * channels context)) out
       = reference_buffer (f64_div (samplerate context) (f64_of_int 440))
           (Z.to_nat (channels context)) (Z.to_nat frames)
           (generator context)
    /\ drop (Z.to_nat (frames * channels context)) out
       = drop (Z.to_nat (frames * channels context)) data.
Proof.
  intros Hch Hok; pose proof Hok as (Hn & _).
  rewrite callback_refines by assumption.
  eexists _, _; split; [reflexivity|].
  assert (length (reference_buffer (samplePeriod context)
                    (Z.to_nat (channels context)) (Z.to_nat frames)
                    (generator context))
          = Z.to_nat (frames * channels context)) as Hlen
    by (rewrite reference_buffer_length; nia).
  split; [reflexivity|split].
  - rewrite take_app_length' by (symmetry; exact Hlen); reflexivity.
  - apply drop_app_length'; symmetry; exact Hlen.
Qed.

(** C6: a call with a zero frame count returns [noErr], leaves the context,
    and so its phase, as it was, and stores into no slot of the buffer. *)
Theorem zero_frames_change_nothing context flags time bus data :
  callback context flags time bus 0 data = Done (noErr, context, data).
Proof.
  unfold callback; change (Z.to_nat 0) with O; cbn [frame_loop bind].
  f_equal; f_equal; f_equal; apply set_generator_same.
Qed.

(** C8: whatever a call returns, the context it leaves has the sample rate,
    the channel count and the audio-unit handle of the context it was
    given; the phase accumulator is the only field it assigns. *)
Theorem callback_assigns_generator_only context flags time bus frames data
    status context' out :
  callback context flags time bus frames data = Done (status, context', out) ->
  samplerate context' = samplerate context /\
  channels context' = channels context /\
  audioUnit context' = audioUnit context.
Proof.
  unfold callback.
  destruct (frame_loop _ _ _ _ _ _) as [[g out']|f]; cbn [bind];
    [|discriminate].
  intros [= _ <- _]; repeat split.
Qed.

(** C9: a well-formed call returns [noErr] and leaves a buffer of the same
    size in which every requested slot holds the sample of its frame;
    and no call at all returns a status other than [noErr]. *)
Theorem callback_succeeds context flags time bus frames data :
  0 < channels context ->
  adequate context frames data ->
  (exists context' out,
      callback context flags time bus frames data
      = Done (noErr, context', out) /\
      length out = length data /\
      forall k : nat,
        Z.of_nat k < frames * channels context ->
        out !! k
        = Some (sample_at (samplePeriod context)
                  (reference_phase (samplePeriod context)
                     (S (k / Z.to_nat (channels context)))
                     (generator context)))) /\
  (forall flags' time' bus' frames' data' status context' out,
      callback context flags' time' bus' frames' data'
      = Done (status, context', out) ->
      status = noErr).
Proof.
  intros Hch Hok; pose proof Hok as (Hn & Hfit & _); split.
  - rewrite callback_refines by assumption.
    eexists _, _; split; [reflexivity|].
    assert (length (reference_buffer (samplePeriod context)
                      (Z.to_nat (channels context)) (Z.to_nat frames)
                      (generator context))
            = Z.to_nat (frames * channels context)) as Hlen
      by (rewrite reference_buffer_length; nia).
    split.
    + rewrite length_app, length_drop, Hlen; lia.
    + intros k Hk.
      rewrite lookup_app_l by lia.
      apply reference_buffer_lookup; nia.
  - intros flags' time' bus' frames' data' status context' out.
    unfold callback.
    destruct (frame_loop _ _ _ _ _ _) as [[g out']|f]; cbn [bind];
      [|discriminate].
    intros [= <- _ _]; reflexivity.
Qed.


End GenericClaims.

Lemma chunking_invariance_witness :
  exists context' stream,
    render_session main_context [stereo_request 100; stereo_request 1]
    = Done (context', stream) /\
    render_session main_context [stereo_request 101]
    = Done (context', stream).
Proof.
  apply (chunking_invariance main_context
           [stereo_request 100; stereo_request 1] (stereo_request 101)).
  - reflexivity.
  - repeat constructor; vm_compute; discriminate.
  - repeat split; vm_compute; discriminate.
  - reflexivity.
Defined.

Lemma callback_computes_reference_witness :
  exists context' out,
    callback main_context 0 no_time 0 3 (silence 8)
    = Done (noErr, context', out)
    /\ generator context'
       = reference_phase
           (f64_div (samplerate main_context) (f64_of_int 440)) 3
           (generator main_context)
    /\ take 6 out
       = reference_buffer
           (f64_div (samplerate main_context) (f64_of_int 440)) 2 3
           (generator main_context)
    /\ drop 6 out = drop 6 (silence 8).
Proof.
  apply (callback_computes_reference main_context 0 no_time 0 3 (silence 8)).
  - reflexivity.
  - repeat split; vm_compute; discriminate.
Defined.

Lemma callback_assigns_generator_only_witness :
  samplerate (Build_AudioContext Machine 3%float 44100%float 2 0)
  = samplerate main_context /\
  channels (Build_AudioContext Machine 3%float 44100%float 2 0)
  = channels main_context /\
  audioUnit (Build_AudioContext Machine 3%float 44100%float 2 0)
  = audioUnit main_context.
Proof.
  apply (callback_assigns_generator_only main_context 0 no_time 0 3
           (silence 6) noErr _
           [0x1.009b88p-4%float; 0x1.009b88p-4%float;
            0x1.001a7ep-3%float; 0x1.001a7ep-3%float;
            0x1.7ee5a4p-3%float; 0x1.7ee5a4p-3%float]).
  reflexivity.
Defined.

Lemma callback_succeeds_witness :
  (exists context' out,
      callback main_context 0 no_time 0 3 (silence 8)
      = Done (noErr, context', out) /\
      length out = length (silence 8) /\
      forall k : nat,
        Z.of_nat k < 3 * channels main_context ->
        out !! k
        = Some (sample_at (samplePeriod main_context)
                  (reference_phase (samplePeriod main_context)
                     (S (k / Z.to_nat (channels main_context)))
                     (generator main_context)))) /\
  (forall flags' time' bus' frames' data' status context' out,
      callback main_context flags' time' bus' frames' data'
      = Done (status, context', out) ->
      status = noErr).
Proof.
  apply (callback_succeeds main_context 0 no_time 0 3 (silence 8)).
  - reflexivity.
  - repeat split; vm_compute; discriminate.
Defined.


(** ** Exact arithmetic *)

Section IdealArithmetic.

Local Open Scope R_scope.

Implicit Types (P g : R) (context : AudioContext Ideal).

Lemma ideal_advance_below P g :
  g + 1 <= P -> advance (A:=Ideal) P g = g + 1.
Proof.
  intros Hle; unfold advance; cbn; unfold Rgtb.
  destruct (Rgt_dec (g + 1) P); [lra | reflexivity].
Qed.

Lemma ideal_advance_above P g :
  g + 1 > P -> advance (A:=Ideal) P g = g + 1 - P.
Proof.
  intros Hgt; unfold advance; cbn; unfold Rgtb.
  destruct (Rgt_dec (g + 1) P); [reflexivity | lra].
Qed.

(** One frame keeps the phase between 0 and the period when the period is
    at least one frame long. *)
Lemma ideal_advance_within P g :
  1 <= P -> 0 <= g <= P -> 0 <= advance (A:=Ideal) P g <= P.
Proof.
  intros HP Hg.
  destruct (Rle_or_lt (g + 1) P) as [Hle|Hgt].
  - rewrite ideal_advance_below by exact Hle; lra.
  - rewrite ideal_advance_above by lra; lra.
Qed.

Lemma ideal_phase_within P n : forall g,
  1 <= P -> 0 <= g <= P -> 0 <= reference_phase (A:=Ideal) P n g <= P.
Proof.
  induction n as [|n IH]; intros g HP Hg; [exact Hg|].
  rewrite reference_phase_step.
  apply IH; [exact HP | apply ideal_advance_within; assumption].
Qed.

(** While the phase stays within the period the frames just count. *)
Lemma ideal_phase_counts P n : forall g,
  g + IZR (Z.of_nat n) <= P ->
  reference_phase (A:=Ideal) P n g = g + IZR (Z.of_nat n).
Proof.
  induction n as [|n IH]; intros g Hle.
  - change (Z.of_nat 0) with 0%Z; cbn; lra.
  - rewrite Nat2Z.inj_succ, succ_IZR in *.
    assert (0 <= IZR (Z.of_nat n)) by (apply IZR_le; lia).
    rewrite reference_phase_step, ideal_advance_below by lra.
    rewrite IH by lra; lra.
Qed.

Lemma ideal_wrap_count_none P n : forall g,
  g + IZR (Z.of_nat n) <= P -> wrap_count (A:=Ideal) P n g = O.
Proof.
  induction n as [|n IH]; intros g Hle; [reflexivity|].
  rewrite Nat2Z.inj_succ, succ_IZR in *.
  assert (0 <= IZR (Z.of_nat n)) by (apply IZR_le; lia).
  cbn [wrap_count].
  rewrite ideal_advance_below, IH by lra.
  unfold wraps; cbn; unfold Rgtb.
  destruct (Rgt_dec (g + 1) P); [lra | reflexivity].
Qed.

(** One turn more or less does not change the sine. *)
Lemma ideal_sample_periodic P g :
  P <> 0 ->
  sample_at (A:=Ideal) P (g - P) = sin (2 * PI * g / P).
Proof.
  intros HP; unfold sample_at; cbn.
  rewrite <- (sin_period (2 * PI * (g - P) / P) 1).
  f_equal; cbn [INR]; field; exact HP.
Qed.

(** In exact arithmetic, when the sample rate is at least 440 (a period of
    at least one frame) and the phase of the context lies between 0 and the
    period, both included, a well-formed call returns and leaves a phase
    that again lies between 0 and the period, both included. *)
Lemma ideal_phase_remains_within context flags time bus frames data :
  (0 < channels context)%Z ->
  adequate context frames data ->
  440 <= samplerate context ->
  0 <= generator context <= samplePeriod context ->
  exists context' out,
    callback context flags time bus frames data = Done (noErr, context', out)
    /\ 0 <= generator context' <= samplePeriod context'.
Proof.
  intros Hch Hok Hrate Hg.
  rewrite callback_refines by assumption.
  eexists _, _; split; [reflexivity|].
  change (samplePeriod (set_generator context ?g))
    with (samplePeriod context).
  cbn [generator set_generator].
  apply ideal_phase_within; [|exact Hg].
  unfold samplePeriod, frequency; cbn; lra.
Qed.

(** In exact arithmetic, with the real sine for [sinf], every sample a
    well-formed call stores lies between -1 and 1. *)
Lemma ideal_samples_within_unit_range context flags time bus frames data :
  (0 < channels context)%Z ->
  adequate context frames data ->
  exists context' out,
    callback context flags time bus frames data = Done (noErr, context', out)
    /\ Forall (fun v : R => -1 <= v <= 1)
         (take (Z.to_nat (frames * channels context)) out).
Proof.
  intros Hch Hok; pose proof Hok as (Hn & _).
  rewrite callback_refines by assumption.
  eexists _, _; split; [reflexivity|].
  rewrite take_app_length' by (rewrite reference_buffer_length; nia).
  apply (reference_buffer_Forall (A:=Ideal)); intros x; apply SIN_bound.
Qed.

End IdealArithmetic.

(** ** Binary64 arithmetic on the phase

    What the additions, subtractions and comparisons of the callback do to
    a phase that is finite and not negative, from the specification of the
    primitive floats. *)

Lemma fexp_binary64 x : fexp prec emax x = Z.max (x - 53) (-1074).
Proof. reflexivity. Qed.

Lemma digits2_pos_bounds p :
  2 ^ (Zpos (digits2_pos p) - 1) <= Zpos p < 2 ^ Zpos (digits2_pos p).
Proof.
  induction p as [p IH|p IH|]; cbn [digits2_pos].
  - rewrite Pos2Z.inj_succ; change (Zpos p~1) with (2 * Zpos p + 1).
    replace (Z.succ (Zpos (digits2_pos p)) - 1) with
      (Z.succ (Zpos (digits2_pos p) - 1)) by lia.
    rewrite !Z.pow_succ_r by lia.
    destruct IH as [Hlo Hhi]; revert Hlo Hhi.
    generalize (2 ^ (Zpos (digits2_pos p) - 1)) (2 ^ Zpos (digits2_pos p)).
    intros; lia.
  - rewrite Pos2Z.inj_succ; change (Zpos p~0) with (2 * Zpos p).
    replace (Z.succ (Zpos (digits2_pos p)) - 1) with
      (Z.succ (Zpos (digits2_pos p) - 1)) by lia.
    rewrite !Z.pow_succ_r by lia.
    destruct IH as [Hlo Hhi]; revert Hlo Hhi.
    generalize (2 ^ (Zpos (digits2_pos p) - 1)) (2 ^ Zpos (digits2_pos p)).
    intros; lia.
  - cbn; lia.
Qed.

(** The number of digits is the only [k] with [2^(k-1) <= p < 2^k]. *)
Lemma digits2_pos_unique p k :
  2 ^ (k - 1) <= Zpos p < 2 ^ k -> Zpos (digits2_pos p) = k.
Proof.
  intros [Hlo Hhi]; pose proof (digits2_pos_bounds p) as [Hlo' Hhi'].
  assert (0 < k).
  { destruct (Z.lt_ge_cases 0 k) as [|Hk]; [assumption|].
    assert (2 ^ k <= 2 ^ 0) by (apply Z.pow_le_mono_r; lia).
    cbn in *; lia. }
  assert (k - 1 < Zpos (digits2_pos p))
    by (apply (Z.pow_lt_mono_r_iff 2); lia).
  assert (Zpos (digits2_pos p) - 1 < k)
    by (apply (Z.pow_lt_mono_r_iff 2); lia).
  lia.
Qed.

Lemma digits2_pos_shift p (k : Z) q :
  0 <= k -> Zpos q = Zpos p * 2 ^ k ->
  Zpos (digits2_pos q) = Zpos (digits2_pos p) + k.
Proof.
  intros Hk Hq; apply digits2_pos_unique; rewrite Hq.
  pose proof (digits2_pos_bounds p) as [Hlo Hhi].
  replace (Zpos (digits2_pos p) + k - 1)
    with ((Zpos (digits2_pos p) - 1) + k) by lia.
  rewrite !Z.pow_add_r by lia.
  assert (0 < 2 ^ k) by (apply Z.pow_pos_nonneg; lia).
  nia.
Qed.

Lemma iter_xO_shift m d : Zpos (Pos.iter xO m d) = Zpos m * 2 ^ Zpos d.
Proof.
  induction d as [|d IH] using Pos.peano_ind.
  - cbn; lia.
  - rewrite Pos.iter_succ.
    change (Zpos (Pos.iter xO m d)~0) with (2 * Zpos (Pos.iter xO m d)).
    rewrite IH, Pos2Z.inj_succ.
    rewrite Z.pow_succ_r by lia; lia.
Qed.

(** *** Shifting a mantissa to the right *)

Lemma shr_1_shifted M k r :
  0 <= M -> 0 <= k -> shifted M k r -> shifted M (k + 1) (shr_1 r).
Proof.
  intros HM Hk [Hm Hexact].
  assert (0 < 2 ^ k) as Hpow by (apply Z.pow_pos_nonneg; lia).
  assert (M / 2 ^ (k + 1) = M / 2 ^ k / 2) as Hdiv.
  { rewrite Z.pow_add_r, Z.pow_1_r by lia.
    rewrite Z.div_div by lia; reflexivity. }
  assert (M mod 2 ^ (k + 1) = 0 ->
          M mod 2 ^ k = 0 /\ (M / 2 ^ k) mod 2 = 0) as Hmod.
  { rewrite Z.pow_add_r, Z.pow_1_r by lia.
    rewrite Z.rem_mul_r by lia.
    pose proof (Z.mod_pos_bound M (2 ^ k) Hpow).
    pose proof (Z.mod_pos_bound (M / 2 ^ k) 2 ltac:(lia)).
    nia. }
  assert (0 <= M / 2 ^ k) as Hnn by (apply Z.div_pos; lia).
  destruct r as [m r s]; cbn [shr_m shr_r shr_s] in *; subst m.
  unfold shifted; rewrite Hdiv; clear Hdiv.
  destruct (M / 2 ^ k) as [|[p|p|]|p]; try lia;
    cbn [shr_1 shr_m shr_r shr_s].
  - split; [reflexivity|].
    intros H; destruct (Hmod H) as [H1 _]; destruct (Hexact H1) as [-> ->].
    split; reflexivity.
  - split; [change (Zpos p~1) with (2 * Zpos p + 1);
            apply Z.div_unique with 1; lia|].
    intros H; destruct (Hmod H) as [_ H2].
    change (Zpos p~1) with (2 * Zpos p + 1) in H2.
    replace ((2 * Zpos p + 1) mod 2) with 1 in H2; [discriminate|].
    apply Z.mod_unique with (Zpos p); lia.
  - split; [change (Zpos p~0) with (2 * Zpos p);
            apply Z.div_unique with 0; lia|].
    intros H; destruct (Hmod H) as [H1 _]; destruct (Hexact H1) as [-> ->].
    split; reflexivity.
  - split; [reflexivity|].
    intros H; destruct (Hmod H) as [_ H2]; discriminate.
Qed.

Lemma iter_shr_1_shifted n : forall M k r,
  0 <= M -> 0 <= k -> shifted M k r ->
  shifted M (k + Zpos n) (iter_pos shr_1 n r).
Proof.
  induction n as [n IH|n IH|]; intros M k r HM Hk Hr; cbn [iter_pos].
  - replace (k + Zpos n~1) with (k + 1 + Zpos n + Zpos n) by lia.
    apply IH; [lia..|]; apply IH; [lia..|].
    apply shr_1_shifted; assumption.
  - replace (k + Zpos n~0) with (k + Zpos n + Zpos n) by lia.
    apply IH; [lia..|]; apply IH; assumption.
  - apply shr_1_shifted; assumption.
Qed.

Lemma shr_exact_shifted (M : Z) (n : positive) :
  0 <= M ->
  shifted M (Zpos n)
    (iter_pos shr_1 n {| shr_m := M; shr_r := false; shr_s := false |}).
Proof.
  intros HM.
  apply (iter_shr_1_shifted n M 0); [lia..|].
  split; cbn; [rewrite Z.div_1_r; reflexivity | auto].
Qed.

(** *** Rounding to the nearest binary64 number *)

Lemma bounded_inv m e :
  bounded prec emax m e = true ->
  Z.max (Zpos (digits2_pos m) + e - 53) (-1074) = e /\ e <= 971.
Proof.
  unfold bounded, canonical_mantissa; rewrite fexp_binary64.
  intros [H1%Z.eqb_eq H2%Z.leb_le]%andb_prop; split; assumption.
Qed.

Lemma bounded_intro m e :
  Z.max (Zpos (digits2_pos m) + e - 53) (-1074) = e -> e <= 971 ->
  bounded prec emax m e = true.
Proof.
  intros H1 H2; unfold bounded, canonical_mantissa; rewrite fexp_binary64.
  apply andb_true_intro; split; [apply Z.eqb_eq | apply Z.leb_le];
    assumption.
Qed.

(** A larger number has at least as many digits before the point. *)
Lemma weight_digits m1 e1 m2 e2 :
  -1074 <= e1 -> -1074 <= e2 ->
  weight m1 e1 <= weight m2 e2 ->
  Zpos (digits2_pos m1) + e1 <= Zpos (digits2_pos m2) + e2.
Proof.
  unfold weight; intros He1 He2 Hle.
  pose proof (digits2_pos_bounds m1) as [Hlo1 _].
  pose proof (digits2_pos_bounds m2) as [_ Hhi2].
  assert (0 < 2 ^ (e1 + 1074)) by (apply Z.pow_pos_nonneg; lia).
  assert (0 < 2 ^ (e2 + 1074)) by (apply Z.pow_pos_nonneg; lia).
  assert (2 ^ (Zpos (digits2_pos m1) - 1 + (e1 + 1074))
          < 2 ^ (Zpos (digits2_pos m2) + (e2 + 1074))) as Hpow.
  { rewrite (Z.pow_add_r 2 (Zpos (digits2_pos m1) - 1)) by lia.
    rewrite (Z.pow_add_r 2 (Zpos (digits2_pos m2))) by lia.
    assert (2 ^ (Zpos (digits2_pos m1) - 1) * 2 ^ (e1 + 1074)
            <= Zpos m1 * 2 ^ (e1 + 1074))
      by (apply Z.mul_le_mono_nonneg_r; lia).
    assert (Zpos m2 * 2 ^ (e2 + 1074)
            < 2 ^ Zpos (digits2_pos m2) * 2 ^ (e2 + 1074))
      by (apply Z.mul_lt_mono_pos_r; lia).
    lia. }
  apply Z.pow_lt_mono_r_iff in Hpow; lia.
Qed.

Lemma round_nearest_even_bounds m l :
  m <= round_nearest_even m l <= m + 1.
Proof.
  destruct l as [|[]]; cbn [round_nearest_even]; try lia.
  destruct (Z.even m); lia.
Qed.

(** A mantissa of [53 + n] digits, shifted right by [n] digits and
    rounded: the result has 53 digits, or is [2^53], and it is at most
    any integer [B] with [M <= B * 2^n]. *)
Lemma shift_and_round_upper (M : positive) (n : positive) :
  Zpos (digits2_pos M) = 53 + Zpos n ->
  let r :=
    iter_pos shr_1 n {| shr_m := Zpos M; shr_r := false; shr_s := false |} in
  let m := round_nearest_even (shr_m r) (loc_of_shr_record r) in
  2 ^ 52 <= m <= 2 ^ 53 /\
  forall B, Zpos M <= B * 2 ^ Zpos n -> m <= B.
Proof.
  intros Hd r m.
  pose proof (shr_exact_shifted (Zpos M) n ltac:(lia)) as [Hm Hexact].
  fold r in Hm, Hexact.
  pose proof (round_nearest_even_bounds (shr_m r) (loc_of_shr_record r))
    as Hround; fold m in Hround.
  pose proof (digits2_pos_bounds M) as [Hlo Hhi]; rewrite Hd in Hlo, Hhi.
  replace (53 + Zpos n - 1) with (52 + Zpos n) in Hlo by lia.
  rewrite Z.pow_add_r in Hlo, Hhi by lia.
  assert (0 < 2 ^ Zpos n) as Hpow by (apply Z.pow_pos_nonneg; lia).
  assert (2 ^ 52 <= shr_m r < 2 ^ 53) as Hm1.
  { rewrite Hm; split.
    - apply Z.div_le_lower_bound; lia.
    - apply Z.div_lt_upper_bound; lia. }
  split; [lia|].
  intros B HB.
  destruct (Z.eq_dec (Zpos M mod 2 ^ Zpos n) 0) as [Hzero|Hrest].
  - destruct (Hexact Hzero) as [Hr Hs].
    assert (m = shr_m r) as ->.
    { subst m; destruct r as [mr rr sr]; cbn in Hr, Hs; subst rr sr.
      reflexivity. }
    rewrite Hm; apply Z.div_le_upper_bound; lia.
  - assert (Zpos M <> B * 2 ^ Zpos n) as Hne.
    { intros Heq; apply Hrest; rewrite Heq; apply Z.mod_mul; lia. }
    assert (shr_m r < B)
      by (rewrite Hm; apply Z.div_lt_upper_bound; lia).
    lia.
Qed.

Lemma shr_fexp_canonical (m : positive) e :
  fexp prec emax (Zpos (digits2_pos m) + e) - e = 0 ->
  shr_fexp prec emax (Zpos m) e loc_Exact
  = ({| shr_m := Zpos m; shr_r := false; shr_s := false |}, e).
Proof.
  intros Hn; unfold shr_fexp; cbn [Zdigits2 shr_record_of_loc].
  rewrite Hn; reflexivity.
Qed.

Lemma shr_fexp_shift (m : positive) e (n : positive) :
  fexp prec emax (Zpos (digits2_pos m) + e) - e = Zpos n ->
  shr_fexp prec emax (Zpos m) e loc_Exact
  = (iter_pos shr_1 n {| shr_m := Zpos m; shr_r := false; shr_s := false |},
     e + Zpos n).
Proof.
  intros Hn; unfold shr_fexp; cbn [Zdigits2 shr_record_of_loc].
  rewrite Hn; reflexivity.
Qed.

(** A mantissa of 53 digits, or [2^53], put back in canonical form. *)
Lemma renormalize (q : positive) e :
  2 ^ 52 <= Zpos q <= 2 ^ 53 ->
  -1074 <= e ->
  exists m3 e3,
    shr_fexp prec emax (Zpos q) e loc_Exact
    = ({| shr_m := Zpos m3; shr_r := false; shr_s := false |}, e3) /\
    Zpos (digits2_pos m3) = 53 /\
    e <= e3 /\
    weight m3 e3 = weight q e.
Proof.
  intros Hq He.
  destruct (Z.eq_dec (Zpos q) (2 ^ 53)) as [Heq|Hne].
  - assert (q = 9007199254740992%positive) as -> by (cbn in Heq; lia).
    exists 4503599627370496%positive, (e + 1).
    split; [|split; [reflexivity|split; [lia|]]].
    + rewrite (shr_fexp_shift _ e 1); [reflexivity|].
      rewrite fexp_binary64; cbn [digits2_pos Pos.succ]; lia.
    + unfold weight.
      replace (e + 1 + 1074) with (Z.succ (e + 1074)) by lia.
      rewrite Z.pow_succ_r by lia; lia.
  - assert (Zpos (digits2_pos q) = 53) as Hd
      by (apply digits2_pos_unique; cbn; cbn in Hq, Hne; lia).
    exists q, e; split; [|split; [exact Hd|split; [lia|reflexivity]]].
    apply shr_fexp_canonical.
    rewrite fexp_binary64, Hd; lia.
Qed.

(** The rounding of an exact positive value that does not exceed the
    binary64 number [(mb, eb)]: it is a binary64 number and does not exceed
    [(mb, eb)] either. *)
Lemma round_aux_upper (M : positive) E mb eb :
  -1074 <= E ->
  E <= fexp prec emax (Zpos (digits2_pos M) + E) ->
  bounded prec emax mb eb = true ->
  weight M E <= weight mb eb ->
  exists m e,
    binary_round_aux prec emax false (Zpos M) E loc_Exact
    = S754_finite false m e /\
    bounded prec emax m e = true /\
    weight m e <= weight mb eb.
Proof.
  intros HE Hfexp Hb Hle.
  destruct (bounded_inv _ _ Hb) as [Hcb Heb].
  assert (-1074 <= eb) as Heb' by lia.
  pose proof (weight_digits M E mb eb HE Heb' Hle) as Hmon.
  rewrite fexp_binary64 in Hfexp.
  unfold binary_round_aux.
  destruct (fexp prec emax (Zpos (digits2_pos M) + E) - E) as [|n|n] eqn:Hn;
    rewrite fexp_binary64 in Hn; [| |lia].
  - (* the mantissa is canonical already *)
    rewrite shr_fexp_canonical by (rewrite fexp_binary64; exact Hn).
    cbn [shr_m loc_of_shr_record round_nearest_even].
    rewrite shr_fexp_canonical by (rewrite fexp_binary64; exact Hn).
    cbn [shr_m].
    assert (E <= 971) as HE' by lia.
    apply Z.leb_le in HE'; change (emax - prec) with 971; rewrite HE'.
    exists M, E; split; [reflexivity|]; split; [|exact Hle].
    apply bounded_intro; [lia | apply Z.leb_le; exact HE'].
  - (* [n] digits are rounded off *)
    assert (Zpos (digits2_pos M) = 53 + Zpos n) as Hd by lia.
    rewrite (shr_fexp_shift M E n) by (rewrite fexp_binary64; exact Hn).
    destruct (shift_and_round_upper M n Hd) as [Hm2 Hupper].
    set (r := iter_pos shr_1 n _) in *.
    set (m2 := round_nearest_even (shr_m r) (loc_of_shr_record r)) in *.
    assert (exists q, m2 = Zpos q) as [q Hq].
    { destruct m2 as [|q|q]; [cbn in Hm2; lia | eauto | cbn in Hm2; lia]. }
    rewrite Hq in *.
    destruct (renormalize q (E + Zpos n) Hm2 ltac:(lia))
      as (m3 & e3 & Hshr & Hd3 & He3 & Hw3).
    rewrite Hshr; cbn [shr_m].
    (* the bound [(mb, eb)] is on the grid of the result *)
    assert (E + Zpos n <= eb) as Hgrid by lia.
    assert (Zpos q <= Zpos mb * 2 ^ (eb - (E + Zpos n))) as HB.
    { apply Hupper.
      unfold weight in Hle.
      replace (eb + 1074) with ((eb - (E + Zpos n)) + Zpos n + (E + 1074))
        in Hle by lia.
      rewrite (Z.pow_add_r 2 (eb - (E + Zpos n) + Zpos n)) in Hle by lia.
      rewrite (Z.pow_add_r 2 (eb - (E + Zpos n))) in Hle by lia.
      assert (0 < 2 ^ (E + 1074)) by (apply Z.pow_pos_nonneg; lia).
      apply (Z.mul_le_mono_pos_r _ _ (2 ^ (E + 1074))); lia. }
    assert (weight m3 e3 <= weight mb eb) as Hw.
    { rewrite Hw3; unfold weight.
      replace (eb + 1074) with ((eb - (E + Zpos n)) + (E + Zpos n + 1074))
        by lia.
      rewrite (Z.pow_add_r 2 (eb - (E + Zpos n))) by lia.
      assert (0 <= 2 ^ (E + Zpos n + 1074)) by (apply Z.pow_nonneg; lia).
      rewrite Z.mul_assoc; apply Z.mul_le_mono_nonneg_r; lia. }
    assert (e3 <= 971) as He3'.
    { pose proof (weight_digits m3 e3 mb eb ltac:(lia) Heb' Hw); lia. }
    pose proof He3' as He3''; apply Z.leb_le in He3''.
    change (emax - prec) with 971; rewrite He3''.
    exists m3, e3; split; [reflexivity|]; split; [|exact Hw].
    apply bounded_intro; lia.
Qed.

(** *** Non-negative binary64 numbers as integers *)

Lemma weight_positive m e : -1074 <= e -> 0 < weight m e.
Proof.
  intros He; unfold weight.
  assert (0 < 2 ^ (e + 1074)) by (apply Z.pow_pos_nonneg; lia).
  lia.
Qed.

Lemma bounded_exponent m e : bounded prec emax m e = true -> -1074 <= e.
Proof. intros [H _]%bounded_inv; lia. Qed.

Lemma units_nonneg x v :
  valid_binary x = true -> units x = Some v -> 0 <= v.
Proof.
  destruct x as [s|s| |[] m e]; cbn; intros Hv [= <-]; [lia|].
  apply Z.lt_le_incl, weight_positive, (bounded_exponent m), Hv.
Qed.

Lemma weight_succ_exponent m e :
  -1074 <= e -> weight m (e + 1) = 2 * weight m e.
Proof.
  intros He; unfold weight.
  replace (e + 1 + 1074) with (Z.succ (e + 1074)) by lia.
  rewrite Z.pow_succ_r by lia; lia.
Qed.

(** Of two binary64 numbers the one with the larger exponent is larger. *)
Lemma weight_lt_of_exponent m1 e1 m2 e2 :
  bounded prec emax m1 e1 = true -> bounded prec emax m2 e2 = true ->
  e1 < e2 -> weight m1 e1 < weight m2 e2.
Proof.
  intros [H1 _]%bounded_inv [H2 _]%bounded_inv Hlt.
  pose proof (digits2_pos_bounds m1) as [_ Hhi1].
  pose proof (digits2_pos_bounds m2) as [Hlo2 _].
  assert (Zpos (digits2_pos m1) <= 53) as Hd1 by lia.
  assert (Zpos (digits2_pos m2) = 53) as Hd2 by lia.
  rewrite Hd2 in Hlo2; change (53 - 1) with 52 in Hlo2.
  assert (Zpos m1 < 2 ^ 53) as Hm1.
  { eapply Z.lt_le_trans; [exact Hhi1|].
    apply Z.pow_le_mono_r; lia. }
  unfold weight.
  replace (e2 + 1074) with ((e2 - e1) + (e1 + 1074)) by lia.
  rewrite (Z.pow_add_r 2 (e2 - e1)) by lia.
  assert (0 < 2 ^ (e1 + 1074)) as Hc by (apply Z.pow_pos_nonneg; lia).
  assert (2 ^ 1 <= 2 ^ (e2 - e1)) as Hk by (apply Z.pow_le_mono_r; lia).
  change (2 ^ 1) with 2 in Hk.
  rewrite Z.mul_assoc; apply Z.mul_lt_mono_pos_r; [exact Hc|].
  eapply Z.lt_le_trans; [exact Hm1|].
  change (2 ^ 53) with (2 ^ 52 * 2).
  apply Z.mul_le_mono_nonneg; lia.
Qed.

Lemma SFcompare_finite m1 e1 m2 e2 :
  bounded prec emax m1 e1 = true -> bounded prec emax m2 e2 = true ->
  SFcompare (S754_finite false m1 e1) (S754_finite false m2 e2)
  = Some (weight m1 e1 ?= weight m2 e2).
Proof.
  intros H1 H2; cbn [SFcompare]; f_equal.
  destruct (Z.compare_spec e1 e2) as [->|Hlt|Hgt].
  - pose proof (bounded_exponent _ _ H2) as He.
    assert (0 < 2 ^ (e2 + 1074)) as Hc by (apply Z.pow_pos_nonneg; lia).
    change (Pos.compare_cont Eq m1 m2) with (Zpos m1 ?= Zpos m2).
    unfold weight.
    destruct (Z.compare_spec (Zpos m1) (Zpos m2)) as [Heq|Hlt|Hgt]; symmetry.
    + rewrite Heq; apply Z.compare_refl.
    + apply Z.compare_lt_iff, Z.mul_lt_mono_pos_r; assumption.
    + apply Z.compare_gt_iff, Z.mul_lt_mono_pos_r; assumption.
  - symmetry; apply Z.compare_lt_iff, weight_lt_of_exponent; assumption.
  - symmetry; apply Z.compare_gt_iff, weight_lt_of_exponent; assumption.
Qed.

(** The comparison of the numbers is the comparison of their values. *)
Lemma SFcompare_units x y vx vy :
  valid_binary x = true -> valid_binary y = true ->
  units x = Some vx -> units y = Some vy ->
  SFcompare x y = Some (vx ?= vy).
Proof.
  destruct x as [sx|sx| |[] mx ex], y as [sy|sy| |[] my ey]; cbn [units];
    intros Hx Hy [= <-] [= <-].
  - reflexivity.
  - cbn in Hy; pose proof (weight_positive my ey (bounded_exponent _ _ Hy)).
    cbn [SFcompare]; f_equal; symmetry; apply Z.compare_lt_iff; lia.
  - cbn in Hx; pose proof (weight_positive mx ex (bounded_exponent _ _ Hx)).
    cbn [SFcompare]; f_equal; symmetry; apply Z.compare_gt_iff; lia.
  - apply SFcompare_finite; assumption.
Qed.

Lemma SFleb_units x y vx vy :
  valid_binary x = true -> valid_binary y = true ->
  units x = Some vx -> units y = Some vy ->
  SFleb x y = (vx <=? vy).
Proof.
  intros Hx Hy Hvx Hvy; unfold SFleb, Z.leb.
  rewrite (SFcompare_units x y vx vy) by assumption.
  destruct (vx ?= vy); reflexivity.
Qed.

Lemma SFltb_units x y vx vy :
  valid_binary x = true -> valid_binary y = true ->
  units x = Some vx -> units y = Some vy ->
  SFltb x y = (vx <? vy).
Proof.
  intros Hx Hy Hvx Hvy; unfold SFltb, Z.ltb.
  rewrite (SFcompare_units x y vx vy) by assumption.
  destruct (vx ?= vy); reflexivity.
Qed.

(** A number between two finite non-negative numbers is finite and
    non-negative. *)
Lemma units_between l x b vl vb :
  units l = Some vl -> units b = Some vb ->
  SFleb l x = true -> SFleb x b = true ->
  exists v, units x = Some v.
Proof.
  destruct l as [sl|sl| |[] ml el]; cbn [units]; intros [= <-];
    (destruct b as [sb|sb| |[] mb eb]; cbn [units]; intros [= <-]);
    (destruct x as [sx|[]| |[] mx ex]; cbn [units SFleb SFcompare];
     intros Hl Hb; try discriminate; eauto).
Qed.

(** *** Sums and differences *)

Lemma shl_align_weight mx ex ez :
  -1074 <= ez <= ex ->
  Zpos (fst (shl_align mx ex ez)) * 2 ^ (ez + 1074) = weight mx ex.
Proof.
  intros Hez; unfold shl_align, weight.
  destruct (ez - ex) as [|d|d] eqn:Hd; cbn [fst]; [| lia |].
  - replace ez with ex by lia; reflexivity.
  - rewrite iter_xO_shift.
    replace (ex + 1074) with (Zpos d + (ez + 1074)) by lia.
    rewrite (Z.pow_add_r 2 (Zpos d)) by lia; lia.
Qed.

(** The rounding of a positive value on a grid at or above the finest,
    below a binary64 number. *)
Lemma binary_round_upper m e mb eb :
  -1074 <= e ->
  bounded prec emax mb eb = true ->
  weight m e <= weight mb eb ->
  exists m' e',
    binary_round prec emax false m e = S754_finite false m' e' /\
    bounded prec emax m' e' = true /\
    weight m' e' <= weight mb eb.
Proof.
  intros He Hb Hle; unfold binary_round, shl_align.
  destruct (fexp prec emax (Zpos (digits2_pos m) + e) - e) as [|d|d] eqn:Hd;
    rewrite fexp_binary64 in Hd.
  - apply round_aux_upper; try assumption.
    rewrite fexp_binary64; lia.
  - apply round_aux_upper; try assumption.
    rewrite fexp_binary64; lia.
  - pose proof (iter_xO_shift m d) as Hshift.
    pose proof (digits2_pos_shift m (Zpos d) (Pos.iter xO m d) ltac:(lia)
                  Hshift) as Hdigits.
    set (F := fexp prec emax (Zpos (digits2_pos m) + e)) in *.
    assert (F = Z.max (Zpos (digits2_pos m) + e - 53) (-1074)) as HF
      by (unfold F; apply fexp_binary64).
    assert (weight (Pos.iter xO m d) F = weight m e) as Hw.
    { unfold weight; rewrite Hshift.
      replace (e + 1074) with (Zpos d + (F + 1074)) by lia.
      rewrite (Z.pow_add_r 2 (Zpos d)) by lia; lia. }
    apply round_aux_upper; try assumption; [lia | | rewrite Hw; exact Hle].
    rewrite fexp_binary64, Hdigits; lia.
Qed.

(** The sum of two finite non-negative numbers whose exact sum does not
    exceed a binary64 number is finite, non-negative and does not exceed
    that number. *)
Lemma SFadd_upper x y vx vy mb eb :
  valid_binary x = true -> valid_binary y = true ->
  units x = Some vx -> units y = Some vy ->
  bounded prec emax mb eb = true ->
  vx + vy <= weight mb eb ->
  exists v, units (SFadd prec emax x y) = Some v /\ v <= weight mb eb.
Proof.
  intros Hx Hy Hvx Hvy Hb Hle.
  pose proof (units_nonneg x vx Hx Hvx) as Hx0.
  pose proof (units_nonneg y vy Hy Hvy) as Hy0.
  destruct x as [sx|sx| |[] mx ex], y as [sy|sy| |[] my ey];
    cbn [units] in Hvx, Hvy; try discriminate;
    injection Hvx as <-; injection Hvy as <-.
  - exists 0; split; [destruct sx, sy; reflexivity | lia].
  - exists (weight my ey); split; [reflexivity | lia].
  - exists (weight mx ex); split; [reflexivity | lia].
  - cbn in Hx, Hy.
    pose proof (bounded_exponent _ _ Hx) as Hex.
    pose proof (bounded_exponent _ _ Hy) as Hey.
    cbn [SFadd cond_Zopp].
    set (ez := Z.min ex ey).
    pose proof (shl_align_weight mx ex ez ltac:(lia)) as Hax.
    pose proof (shl_align_weight my ey ez ltac:(lia)) as Hay.
    set (a := fst (shl_align mx ex ez)) in *.
    set (b := fst (shl_align my ey ez)) in *.
    change (Zpos a + Zpos b) with (Zpos (a + b)); cbn [binary_normalize].
    destruct (binary_round_upper (a + b) ez mb eb ltac:(lia) Hb)
      as (m' & e' & -> & _ & Hw).
    + unfold weight at 1; rewrite Pos2Z.inj_add, Z.mul_add_distr_r.
      rewrite Hax, Hay; exact Hle.
    + exists (weight m' e'); split; [reflexivity | exact Hw].
Qed.

(** The difference of two positive binary64 numbers, the larger first,
    when the exact difference does not exceed a binary64 number. *)
Lemma SFsub_upper mx ex my ey mb eb :
  bounded prec emax mx ex = true -> bounded prec emax my ey = true ->
  bounded prec emax mb eb = true ->
  weight my ey < weight mx ex ->
  weight mx ex - weight my ey <= weight mb eb ->
  exists v,
    units (SFsub prec emax (S754_finite false mx ex) (S754_finite false my ey))
    = Some v /\ v <= weight mb eb.
Proof.
  intros Hx Hy Hb Hlt Hle.
  pose proof (bounded_exponent _ _ Hx) as Hex.
  pose proof (bounded_exponent _ _ Hy) as Hey.
  cbn [SFsub cond_Zopp].
  set (ez := Z.min ex ey).
  pose proof (shl_align_weight mx ex ez ltac:(lia)) as Hax.
  pose proof (shl_align_weight my ey ez ltac:(lia)) as Hay.
  set (a := fst (shl_align mx ex ez)) in *.
  set (b := fst (shl_align my ey ez)) in *.
  assert (0 < 2 ^ (ez + 1074)) as Hc by (apply Z.pow_pos_nonneg; lia).
  assert ((Zpos a - Zpos b) * 2 ^ (ez + 1074)
          = weight mx ex - weight my ey) as Hdiff
    by (rewrite Z.mul_sub_distr_r, Hax, Hay; reflexivity).
  destruct (Zpos a - Zpos b) as [|q|q] eqn:Hq; [lia| |lia].
  cbn [binary_normalize].
  destruct (binary_round_upper q ez mb eb ltac:(lia) Hb)
    as (m' & e' & -> & _ & Hw).
  - unfold weight at 1; rewrite Hdiff; exact Hle.
  - exists (weight m' e'); split; [reflexivity | exact Hw].
Qed.

(** *** The largest numbers *)

Lemma weight_inj m1 e1 m2 e2 :
  bounded prec emax m1 e1 = true -> bounded prec emax m2 e2 = true ->
  weight m1 e1 = weight m2 e2 -> m1 = m2 /\ e1 = e2.
Proof.
  intros H1 H2 Heq.
  destruct (Z.lt_trichotomy e1 e2) as [Hlt|[->|Hgt]].
  - pose proof (weight_lt_of_exponent _ _ _ _ H1 H2 Hlt); lia.
  - split; [|reflexivity].
    pose proof (bounded_exponent _ _ H2) as He.
    assert (0 < 2 ^ (e2 + 1074)) as Hc by (apply Z.pow_pos_nonneg; lia).
    unfold weight in Heq.
    apply Z.mul_cancel_r in Heq; [congruence | lia].
  - pose proof (weight_lt_of_exponent _ _ _ _ H2 H1 ltac:(lia)); lia.
Qed.

(** Below the largest binary64 number there is room for 1. *)
Lemma below_max_float m e :
  bounded prec emax m e = true ->
  weight m e < weight 9007199254740991 971 ->
  weight m e + weight 4503599627370496 (-52)
  <= weight 9007199254740991 971.
Proof.
  intros Hb Hlt.
  destruct (bounded_inv _ _ Hb) as [Hcan _].
  pose proof (digits2_pos_bounds m) as [_ Hhi].
  assert (Zpos m < 2 ^ 53) as Hm.
  { eapply Z.lt_le_trans; [exact Hhi|]; apply Z.pow_le_mono_r; lia. }
  destruct (Z.le_gt_cases 0 e) as [He|He].
  - assert (weight 4503599627370496 (-52) = 1 * 2 ^ 1074) as ->
      by (vm_compute; reflexivity).
    unfold weight in *.
    rewrite (Z.pow_add_r 2 e 1074) in * by lia.
    rewrite (Z.pow_add_r 2 971 1074) in * by lia.
    assert (0 < 2 ^ 1074) as Hc by (apply Z.pow_pos_nonneg; lia).
    rewrite !Z.mul_assoc in *.
    apply Z.mul_lt_mono_pos_r in Hlt; [|exact Hc].
    rewrite <- Z.mul_add_distr_r.
    apply Z.mul_le_mono_nonneg_r; lia.
  - assert (weight m e <= 2 ^ 53 * 2 ^ 1073) as Hsmall.
    { unfold weight.
      apply Z.mul_le_mono_nonneg;
        [lia | lia | apply Z.pow_nonneg; lia | apply Z.pow_le_mono_r; lia]. }
    assert (2 ^ 53 * 2 ^ 1073 + weight 4503599627370496 (-52)
            <= weight 9007199254740991 971) as Hroom
      by (vm_compute; discriminate).
    eapply Z.le_trans; [|exact Hroom].
    apply Z.add_le_mono_r; exact Hsmall.
Qed.

(** [x + 1.0] for a finite [x] between 0 and a period [P] of at least 1:
    the sum is finite and at most [2P].
    - Up to [2^1023], [2P] is a binary64 number, and the exact sum does not
      exceed it.
    - Above, 1 is less than the distance from [P] to the next number, which
      the exact sum does not exceed;
    - unless [P] is the largest number: then the exact sum does not exceed
      [P], or [x] is [P], and the sum is rounded to [P]. *)
Lemma add_one_upper x vx mP eP :
  valid_binary x = true -> units x = Some vx ->
  bounded prec emax mP eP = true ->
  weight 4503599627370496 (-52) <= weight mP eP ->
  vx <= weight mP eP ->
  exists v,
    units (SFadd prec emax x (S754_finite false 4503599627370496 (-52)))
    = Some v /\ v <= 2 * weight mP eP.
Proof.
  intros Hx Hvx HP Hone Hle.
  set (one := S754_finite false 4503599627370496 (-52)).
  assert (valid_binary one = true) as Hvalid1 by reflexivity.
  assert (units one = Some (weight 4503599627370496 (-52))) as Hunits1
    by reflexivity.
  destruct (bounded_inv _ _ HP) as [HcanP HmaxP].
  pose proof (bounded_exponent _ _ HP) as HeP.
  pose proof (weight_positive mP eP HeP) as HposP.
  pose proof (weight_digits 4503599627370496 (-52) mP eP ltac:(lia) HeP Hone)
    as Hlow.
  change (Zpos (digits2_pos 4503599627370496)) with 53 in Hlow.
  assert (Zpos (digits2_pos mP) = 53) as HdP by lia.
  destruct (Z.le_gt_cases eP 970) as [Hsmall|Hlarge].
  - assert (bounded prec emax mP (eP + 1) = true) as Hdouble
      by (apply bounded_intro; lia).
    destruct (SFadd_upper x one vx _ mP (eP + 1) Hx Hvalid1 Hvx Hunits1
                Hdouble) as (v & Hv & Hlev).
    { rewrite weight_succ_exponent by exact HeP; lia. }
    rewrite weight_succ_exponent in Hlev by exact HeP.
    exists v; split; assumption.
  - assert (eP = 971) as -> by lia.
    pose proof (digits2_pos_bounds mP) as [HloP HhiP].
    rewrite HdP in HloP, HhiP; change (53 - 1) with 52 in HloP.
    destruct (Z.eq_dec (Zpos mP) 9007199254740991) as [Hmax|Hnotmax].
    + (* [P] is the largest number *)
      injection Hmax as ->.
      destruct (Z.eq_dec vx (weight 9007199254740991 971)) as [Heq|Hne].
      * destruct x as [sx|sx| |[] mx ex]; cbn [units] in Hvx;
          try discriminate; injection Hvx as <-; [lia|].
        cbn in Hx.
        destruct (weight_inj _ _ _ _ Hx HP Heq) as [-> ->].
        exists (weight 9007199254740991 971); split; [|lia].
        assert (SFadd prec emax (S754_finite false 9007199254740991 971) one
                = S754_finite false 9007199254740991 971) as ->
          by (vm_compute; reflexivity).
        reflexivity.
      * destruct (SFadd_upper x one vx _ 9007199254740991 971 Hx Hvalid1
                    Hvx Hunits1 HP) as (v & Hv & Hlev).
        { destruct x as [sx|sx| |[] mx ex]; cbn [units] in Hvx;
            try discriminate; injection Hvx as <-; [lia|].
          cbn in Hx; apply below_max_float; [exact Hx | lia]. }
        exists v; split; [exact Hv | lia].
    + (* the number after [P] *)
      assert (Zpos (mP + 1) = Zpos mP + 1) as Hsucc by lia.
      assert (bounded prec emax (mP + 1) 971 = true) as Hnext.
      { apply bounded_intro; [|lia].
        rewrite (digits2_pos_unique (mP + 1) 53); [lia|].
        change (53 - 1) with 52; cbn in HloP, HhiP |- *; lia. }
      assert (weight 4503599627370496 (-52) <= 1 * 2 ^ (971 + 1074)) as Hulp
        by (vm_compute; discriminate).
      assert (weight (mP + 1) 971 = weight mP 971 + 1 * 2 ^ (971 + 1074))
        as Hwnext by (unfold weight; rewrite Hsucc; ring).
      assert (1 * 2 ^ (971 + 1074) <= weight mP 971) as Hbig.
      { unfold weight; apply Z.mul_le_mono_nonneg_r; [|lia].
        apply Z.pow_nonneg; lia. }
      destruct (SFadd_upper x one vx _ (mP + 1) 971 Hx Hvalid1 Hvx Hunits1
                  Hnext) as (v & Hv & Hlev).
      { rewrite Hwnext.
        apply Z.add_le_mono; assumption. }
      exists v; split; [exact Hv|].
      rewrite Hwnext in Hlev.
      eapply Z.le_trans; [exact Hlev|].
      replace (2 * weight mP 971) with (weight mP 971 + weight mP 971)
        by ring.
      apply Z.add_le_mono_l; exact Hbig.
Qed.

(** *** Numbers that are not negative *)

Lemma shr_fexp_nonneg m e :
  0 <= m -> 0 <= shr_m (fst (shr_fexp prec emax m e loc_Exact)).
Proof.
  intros Hm; unfold shr_fexp, shr; cbn [shr_record_of_loc].
  destruct (fexp prec emax (Zdigits2 m + e) - e) as [|p|p];
    cbn [fst shr_m]; try exact Hm.
  destruct (shr_exact_shifted m p Hm) as [-> _].
  apply Z.div_pos; [exact Hm | apply Z.pow_pos_nonneg; lia].
Qed.

Lemma round_aux_not_negative M E :
  not_negative (binary_round_aux prec emax false (Zpos M) E loc_Exact)
  = true.
Proof.
  unfold binary_round_aux.
  pose proof (shr_fexp_nonneg (Zpos M) E ltac:(lia)) as H1.
  destruct (shr_fexp prec emax (Zpos M) E loc_Exact) as [mrs' e'].
  cbn [fst] in H1.
  pose proof (round_nearest_even_bounds (shr_m mrs')
                (loc_of_shr_record mrs')) as Hround.
  set (m2 := round_nearest_even _ _) in *.
  pose proof (shr_fexp_nonneg m2 e' ltac:(lia)) as H2.
  destruct (shr_fexp prec emax m2 e' loc_Exact) as [mrs'' e''].
  cbn [fst] in H2.
  destruct (shr_m mrs'') as [|m|m]; [reflexivity | | lia].
  destruct (e'' <=? emax - prec); reflexivity.
Qed.

Lemma SFadd_not_negative x y :
  not_negative x = true -> not_negative y = true ->
  not_negative (SFadd prec emax x y) = true.
Proof.
  destruct x as [sx|[]| |[] mx ex], y as [sy|[]| |[] my ey];
    cbn [not_negative]; intros Hx Hy; try discriminate;
    try reflexivity.
  - destruct sx, sy; reflexivity.
  - cbn [SFadd cond_Zopp].
    change (Zpos ?a + Zpos ?b) with (Zpos (a + b)).
    cbn [binary_normalize]; unfold binary_round.
    destruct (shl_align _ _ _) as [mz ez].
    apply round_aux_not_negative.
Qed.

Lemma SFleb_zero x : SFleb (S754_zero false) x = not_negative x.
Proof. destruct x as [sx|[]| |[] mx ex]; reflexivity. Qed.

Lemma SFleb_infinity x :
  not_negative x = true -> SFleb x (S754_infinity false) = true.
Proof. destruct x as [sx|[]| |[] mx ex]; intros H; try discriminate; reflexivity. Qed.

Lemma SFltb_infinity x : SFltb (S754_infinity false) x = false.
Proof. destruct x as [sx|[]| |sx mx ex]; reflexivity. Qed.

(** *** The primitive floats *)

Lemma leb_units x y vx vy :
  float_units x = Some vx -> float_units y = Some vy ->
  PrimFloat.leb x y = (vx <=? vy).
Proof.
  intros Hx Hy; rewrite leb_spec.
  apply SFleb_units; auto using Prim2SF_valid.
Qed.

Lemma ltb_units x y vx vy :
  float_units x = Some vx -> float_units y = Some vy ->
  PrimFloat.ltb x y = (vx <? vy).
Proof.
  intros Hx Hy; rewrite ltb_spec.
  apply SFltb_units; auto using Prim2SF_valid.
Qed.

Lemma float_units_between l x b vl vb :
  float_units l = Some vl -> float_units b = Some vb ->
  PrimFloat.leb l x = true -> PrimFloat.leb x b = true ->
  exists v, float_units x = Some v /\ vl <= v <= vb.
Proof.
  intros Hl Hb Hlx Hxb.
  destruct (units_between (Prim2SF l) (Prim2SF x) (Prim2SF b) vl vb)
    as [v Hv]; try assumption; try (rewrite <- leb_spec; assumption).
  exists v; split; [exact Hv|].
  rewrite (leb_units l x vl v) in Hlx by assumption.
  rewrite (leb_units x b v vb) in Hxb by assumption.
  apply Z.leb_le in Hlx, Hxb; lia.
Qed.

Lemma float_units_zero : float_units 0 = Some 0.
Proof. reflexivity. Qed.

Lemma float_units_one : float_units 1 = Some (weight 4503599627370496 (-52)).
Proof. reflexivity. Qed.

(** A period of at least 1 is the positive infinity or a finite number. *)
Lemma period_cases P :
  PrimFloat.leb 1 P = true ->
  Prim2SF P = S754_infinity false \/
  exists vP, float_units P = Some vP /\ weight 4503599627370496 (-52) <= vP.
Proof.
  intros Hone.
  pose proof Hone as Hspec; rewrite leb_spec in Hspec.
  change (Prim2SF 1) with (S754_finite false 4503599627370496 (-52)) in Hspec.
  destruct (Prim2SF P) as [sP|[]| |[] mP eP] eqn:HeqP; cbn in Hspec;
    try discriminate; [left; reflexivity|].
  right; exists (weight mP eP).
  assert (float_units P = Some (weight mP eP)) as HP
    by (unfold float_units; rewrite HeqP; reflexivity).
  split; [exact HP|].
  rewrite (leb_units 1 P _ _ float_units_one HP) in Hone.
  apply Z.leb_le; exact Hone.
Qed.

(** *** One frame, and any number of frames

    With a finite period [P] of at least 1, a phase between 0 and [P] is
    taken to a phase between 0 and [P]: [phase + 1.0] is at most [2P]; if
    it is above [P], the exact difference with [P] is at most [P], and so
    is its rounding. *)
Lemma binary64_advance_within libm_sinf P g vP vg :
  float_units P = Some vP -> float_units g = Some vg ->
  weight 4503599627370496 (-52) <= vP ->
  vg <= vP ->
  exists v,
    float_units (advance (A:=Binary64 libm_sinf) P g) = Some v /\ v <= vP.
Proof.
  intros HP Hg Hone Hle.
  unfold advance; cbn [f64_add f64_gt f64_sub f64_of_int Binary64].
  change (float_of_Z 1) with 1%float.
  pose proof (weight_positive 4503599627370496 (-52) ltac:(lia)) as Hpos.
  pose proof (Prim2SF_valid P) as HvalidP.
  pose proof HP as HunitsP; unfold float_units in HunitsP.
  destruct (Prim2SF P) as [sP|sP| |[] mP eP] eqn:HeqP; cbn [units] in HunitsP;
    try discriminate; injection HunitsP as <-; [lia|].
  cbn in HvalidP.
  pose proof (bounded_exponent _ _ HvalidP) as HeP.
  (* the sum *)
  destruct (add_one_upper (Prim2SF g) vg mP eP (Prim2SF_valid g) Hg HvalidP
              Hone Hle) as (v1 & Hv1 & Hle1).
  change (S754_finite false 4503599627370496 (-52)) with (Prim2SF 1) in Hv1.
  change (SFadd prec emax) with SF64add in Hv1.
  rewrite <- add_spec in Hv1.
  rewrite (ltb_units P (g + 1) (weight mP eP) v1) by assumption.
  destruct (Z.ltb_spec (weight mP eP) v1) as [Hwrap|Hstay].
  - (* the phase wraps *)
    pose proof (Prim2SF_valid (g + 1)) as Hvalid1.
    unfold float_units in Hv1 |- *.
    rewrite sub_spec, HeqP.
    destruct (Prim2SF (g + 1)) as [s1|s1| |[] m1 e1]; cbn [units] in Hv1;
      try discriminate; injection Hv1 as <-; [lia|].
    cbn in Hvalid1.
    apply (SFsub_upper m1 e1 mP eP mP eP); try assumption; lia.
  - exists v1; split; [exact Hv1 | exact Hstay].
Qed.

Lemma binary64_phase_within libm_sinf P vP :
  float_units P = Some vP ->
  weight 4503599627370496 (-52) <= vP ->
  forall n g vg,
    float_units g = Some vg -> vg <= vP ->
    exists v,
      float_units (reference_phase (A:=Binary64 libm_sinf) P n g) = Some v
      /\ v <= vP.
Proof.
  intros HP Hone n; induction n as [|n IH]; intros g vg Hg Hle.
  - exists vg; split; assumption.
  - rewrite reference_phase_step.
    destruct (binary64_advance_within libm_sinf P g vP vg HP Hg Hone Hle)
      as (v & Hv & Hlev).
    exact (IH _ v Hv Hlev).
Qed.

(** With an infinite period the phase never wraps; it stays a number that
    is not negative. *)
Lemma binary64_phase_not_negative libm_sinf P :
  Prim2SF P = S754_infinity false ->
  forall n g,
    not_negative (Prim2SF g) = true ->
    not_negative (Prim2SF (reference_phase (A:=Binary64 libm_sinf) P n g))
    = true.
Proof.
  intros HP n; induction n as [|n IH]; intros g Hg; [exact Hg|].
  rewrite reference_phase_step; apply IH.
  unfold advance; cbn [f64_add f64_gt f64_sub f64_of_int Binary64].
  change (float_of_Z 1) with 1%float.
  rewrite ltb_spec, HP, SFltb_infinity, add_spec.
  apply SFadd_not_negative; [exact Hg | reflexivity].
Qed.

(** C2, as amended: in binary64 arithmetic, whatever the C library's
    [sinf], let [P] be the period, the sample rate of the context divided
    by 440.  When [P] is at least 1 and the phase of the context lies
    between 0 and [P], both included, a well-formed call returns, keeps the
    sample rate (and so the period), and leaves a phase that again lies
    between 0 and [P], both included. *)
Theorem phase_stays_within_period libm_sinf
    (context : AudioContext (Binary64 libm_sinf)) flags time bus frames data :
  let P := PrimFloat.div (samplerate context) 440 in
  0 < channels context ->
  adequate context frames data ->
  PrimFloat.leb 1 P = true ->
  PrimFloat.leb 0 (generator context) = true ->
  PrimFloat.leb (generator context) P = true ->
  exists context' out,
    callback context flags time bus frames data = Done (noErr, context', out)
    /\ samplerate context' = samplerate context
    /\ PrimFloat.leb 0 (generator context') = true
    /\ PrimFloat.leb (generator context') P = true.
Proof.
  intros P Hch Hok Hone Hzero Hle.
  rewrite callback_refines by assumption.
  eexists _, _; split; [reflexivity|].
  cbn [generator samplerate set_generator]; split; [reflexivity|].
  change (samplePeriod context) with P.
  destruct (period_cases P Hone) as [Hinf|(vP & HP & HvP)].
  - (* an infinite period *)
    assert (not_negative (Prim2SF (generator context)) = true) as Hg.
    { rewrite <- SFleb_zero.
      change (S754_zero false) with (Prim2SF 0).
      rewrite <- leb_spec; exact Hzero. }
    pose proof (binary64_phase_not_negative libm_sinf P Hinf
                  (Z.to_nat frames) (generator context) Hg) as Hg'.
    split.
    + rewrite leb_spec.
      change (Prim2SF 0) with (S754_zero false).
      rewrite SFleb_zero; exact Hg'.
    + rewrite leb_spec, Hinf.
      apply SFleb_infinity; exact Hg'.
  - (* a finite period *)
    destruct (float_units_between 0 (generator context) P _ _
                float_units_zero HP Hzero Hle)
      as (vg & Hg & Hvg).
    destruct (binary64_phase_within libm_sinf P vP HP HvP (Z.to_nat frames)
                (generator context) vg Hg ltac:(lia))
      as (v & Hv & Hlev).
    pose proof (units_nonneg _ v (Prim2SF_valid _) Hv) as Hv0.
    rewrite (leb_units _ _ 0 v float_units_zero Hv).
    rewrite (leb_units _ _ v vP Hv HP).
    split; apply Z.leb_le; lia.
Qed.

Lemma phase_stays_within_period_witness :
  exists context' out,
    callback main_context 0 no_time 0 3 (silence 6)
    = Done (noErr, context', out)
    /\ samplerate context' = samplerate main_context
    /\ PrimFloat.leb 0 (generator context') = true
    /\ PrimFloat.leb (generator context')
         (PrimFloat.div (samplerate main_context) 440) = true.
Proof.
  apply (phase_stays_within_period sinf_poly main_context 0 no_time 0 3
           (silence 6)).
  - reflexivity.
  - repeat split; vm_compute; discriminate.
  - reflexivity.
  - reflexivity.
  - reflexivity.
Defined.

(** ** The scenarios of the specification *)

Lemma wrap_count_add {A : Arith} (P : Float64) a : forall b g,
  wrap_count P (a + b) g
  = (wrap_count P a g + wrap_count P b (reference_phase P a g))%nat.
Proof.
  induction a as [|a IH]; intros b g; [reflexivity|].
  change (S a + b)%nat with (S (a + b)).
  cbn [wrap_count]; rewrite reference_phase_step, IH; lia.
Qed.

Section IdealScenario.

Local Open Scope R_scope.

(** The period at 44100 frames per second: 100.2272... *)
Lemma ideal_period_44100 :
  samplePeriod (ideal_context 0 44100) = 44100 / 440.
Proof. reflexivity. Qed.

(** In exact arithmetic the first hundred frames just count. *)
Lemma ideal_hundred_frames :
  exists out,
    callback (ideal_context 0 44100) 0 ideal_time 0 100 (ideal_silence 200)
    = Done (noErr, ideal_context 100 44100, out).
Proof.
  rewrite callback_refines;
    [| reflexivity | repeat split; vm_compute; discriminate].
  rewrite ideal_phase_counts;
    change (Z.of_nat (Z.to_nat 100)) with 100%Z;
    change (generator (ideal_context 0 44100)) with 0;
    rewrite ?ideal_period_44100; [| lra].
  replace (0 + 100) with 100 by lra.
  eexists; reflexivity.
Qed.

(** Frame 101 subtracts the period, and its sample is the sine at 101. *)
Lemma ideal_frame_101 :
  callback (ideal_context 100 44100) 0 ideal_time 0 1 (ideal_silence 2)
  = Done (noErr, ideal_context (101 - 44100 / 440) 44100,
          [sin (2 * PI * 101 / (44100 / 440));
           sin (2 * PI * 101 / (44100 / 440))]).
Proof.
  rewrite callback_refines;
    [| reflexivity | repeat split; vm_compute; discriminate].
  change (Z.to_nat 1) with 1%nat.
  rewrite reference_phase_step, reference_buffer_step.
  change (samplePeriod (ideal_context 100 44100)) with (44100 / 440).
  change (generator (ideal_context 100 44100)) with 100.
  rewrite ideal_advance_above by lra.
  replace (100 + 1) with 101 by lra.
  rewrite ideal_sample_periodic by lra.
  reflexivity.
Qed.

End IdealScenario.

(** C5: with the set-up of [main] (phase 0, 44100 frames per second, two
    channels), a request for 101 frames returns; exactly one of its frames
    subtracts the period, so that the phase it leaves is 101 minus the
    period; and that phase is at least 0 and below the period.  This holds
    in binary64 arithmetic, whatever [sinf] the library has, and in exact
    arithmetic. *)
Theorem one_wrap_in_101_frames :
  (forall libm_sinf,
      let context := binary64_context libm_sinf 0 44100 in
      exists context' out,
        callback context 0 (binary64_time libm_sinf) 0 101 (silence 202)
        = Done (noErr, context', out) /\
        wrap_count (samplePeriod context) 101 (generator context) = 1%nat /\
        generator context' = PrimFloat.sub 101 (samplePeriod context) /\
        PrimFloat.leb 0 (generator context') = true /\
        PrimFloat.ltb (generator context') (samplePeriod context) = true) /\
  (let context := ideal_context 0 44100 in
   exists context' out,
     callback context 0 ideal_time 0 101 (ideal_silence 202)
     = Done (noErr, context', out) /\
     wrap_count (samplePeriod context) 101 (generator context) = 1%nat /\
     generator context' = (101 - samplePeriod context)%R /\
     (0 <= generator context' < samplePeriod context)%R).
Proof.
  split.
  - intros libm_sinf context; subst context.
    rewrite callback_refines;
      [| reflexivity | repeat split; vm_compute; discriminate].
    eexists _, _; split; [reflexivity|].
    vm_compute; repeat split.
  - intros context; subst context.
    rewrite callback_refines;
      [| reflexivity | repeat split; vm_compute; discriminate].
    eexists _, _; split; [reflexivity|].
    change (Z.to_nat 101) with (100 + 1)%nat.
    change 101%nat with (100 + 1)%nat.
    rewrite wrap_count_add, reference_phase_add.
    change (generator (ideal_context 0 44100)) with 0%R.
    rewrite ideal_period_44100.
    rewrite ideal_wrap_count_none, ideal_phase_counts;
      change (Z.of_nat 100) with 100%Z; try lra.
    cbn [set_generator generator reference_phase wrap_count].
    fold (advance (A:=Ideal) (44100 / 440)%R (0 + 100)%R).
    fold (wraps (A:=Ideal) (44100 / 440)%R (0 + 100)%R).
    rewrite ideal_advance_above by lra.
    unfold wraps; cbn; unfold Rgtb.
    destruct (Rgt_dec (0 + 100 + 1) (44100 / 440)); [|lra].
    repeat split; lra.
Qed.

(** C4, as amended: with the set-up of [main], a request for 100 frames
    leaves the phase 100, no frame having subtracted the period; one
    further request for 1 frame subtracts the period and leaves the phase
    101 minus the period, about 0.773; both channel slots of that frame
    hold the same sample, [sinf] at [2 pi phase / period] for that phase,
    which in exact arithmetic is the sine of [2 pi 101 / period]. *)
Theorem scenario_100_frames_then_1 :
  (forall libm_sinf,
      let context := binary64_context libm_sinf 0 44100 in
      let time := binary64_time libm_sinf in
      exists context100 out100 context101 sample,
        callback context 0 time 0 100 (silence 200)
        = Done (noErr, context100, out100) /\
        generator context100 = 100%float /\
        wrap_count (samplePeriod context) 100 (generator context) = O /\
        callback context100 0 time 0 1 (silence 2)
        = Done (noErr, context101, [sample; sample]) /\
        generator context101 = PrimFloat.sub 101 (samplePeriod context) /\
        PrimFloat.ltb (generator context101) 1 = true /\
        sample = sample_at (samplePeriod context) (generator context101)) /\
  (exists out100,
      callback (ideal_context 0 44100) 0 ideal_time 0 100 (ideal_silence 200)
      = Done (noErr, ideal_context 100 44100, out100) /\
      wrap_count (samplePeriod (ideal_context 0 44100)) 100 0%R = O /\
      callback (ideal_context 100 44100) 0 ideal_time 0 1 (ideal_silence 2)
      = Done (noErr, ideal_context (101 - 44100 / 440) 44100,
              [sin (2 * PI * 101 / (44100 / 440));
               sin (2 * PI * 101 / (44100 / 440))])).
Proof.
  split.
  - intros libm_sinf context time; subst context time.
    eexists _, _, _, _; split;
      [apply callback_refines; [reflexivity | repeat split; vm_compute; discriminate]|].
    split; [vm_compute; reflexivity|].
    split; [vm_compute; reflexivity|].
    split.
    { rewrite callback_refines; [reflexivity | reflexivity |].
      repeat split; vm_compute; discriminate. }
    vm_compute; repeat split.
  - destruct ideal_hundred_frames as [out100 H100].
    exists out100; split; [exact H100|]; split; [|exact ideal_frame_101].
    rewrite ideal_period_44100.
    apply ideal_wrap_count_none; change (Z.of_nat 100) with 100%Z; lra.
Qed.

(** The phase C4 expects after frame 101 is not the phase the callback
    leaves: in binary64 arithmetic and with the set-up of [main], the phase
    after the request for 100 frames and the further request for 1 frame is
    below 1, more than 100 away from 101. *)
Lemma phase_after_frame_101_is_below_1 :
  exists context100 out100 context101 out101,
    callback main_context 0 no_time 0 100 (silence 200)
    = Done (noErr, context100, out100) /\
    callback context100 0 no_time 0 1 (silence 2)
    = Done (noErr, context101, out101) /\
    PrimFloat.ltb (generator context101) 1 = true /\
    PrimFloat.leb 100.5 (generator context101) = false.
Proof.
  eexists _, _, _, _; split;
    [apply callback_refines; [reflexivity | repeat split; vm_compute; discriminate]|].
  split; [apply callback_refines; [reflexivity | repeat split; vm_compute; discriminate]|].
  vm_compute; split; reflexivity.
Qed.

(** The phase does not stay below the period, as C2 has it.
    - At 44000 frames per second the period is 100; from the phase 99,
      which is in [0, 100), one frame leaves the phase 100: the period
      itself.  So it is in binary64 and in exact arithmetic.
    - At 110 frames per second the period is 0.25; from the phase 0 one
      frame leaves the phase 0.75, above the period. *)
Lemma phase_reaches_the_period :
  (let context := binary64_context sinf_poly 99 44000 in
   PrimFloat.leb 0 (generator context) = true /\
   PrimFloat.ltb (generator context) (samplePeriod context) = true /\
   exists context' out,
     callback context 0 no_time 0 1 (silence 2)
     = Done (noErr, context', out) /\
     generator context' = samplePeriod context' /\
     PrimFloat.ltb (generator context') (samplePeriod context') = false) /\
  ((0 <= generator (ideal_context 99 44000)
       < samplePeriod (ideal_context 99 44000))%R /\
   exists context' out,
     callback (ideal_context 99 44000) 0 ideal_time 0 1 (ideal_silence 2)
     = Done (noErr, context', out) /\
     generator context' = samplePeriod context') /\
  (let context := binary64_context sinf_poly 0 110 in
   PrimFloat.leb 0 (generator context) = true /\
   PrimFloat.ltb (generator context) (samplePeriod context) = true /\
   exists context' out,
     callback context 0 no_time 0 1 (silence 2)
     = Done (noErr, context', out) /\
     generator context' = 0.75%float /\
     samplePeriod context' = 0.25%float /\
     PrimFloat.leb (generator context') (samplePeriod context') = false).
Proof.
  split; [|split].
  - intros context; subst context.
    split; [reflexivity|]; split; [reflexivity|].
    eexists _, _; split;
      [apply callback_refines; [reflexivity | repeat split; vm_compute; discriminate]|].
    vm_compute; split; reflexivity.
  - change (generator (ideal_context 99 44000)) with 99%R.
    change (samplePeriod (ideal_context 99 44000)) with (44000 / 440)%R.
    split; [lra|].
    rewrite callback_refines;
      [| reflexivity | repeat split; vm_compute; discriminate].
    eexists _, _; split; [reflexivity|].
    change (Z.to_nat 1) with 1%nat.
    rewrite reference_phase_step.
    change (samplePeriod (ideal_context 99 44000)) with (44000 / 440)%R.
    change (generator (ideal_context 99 44000)) with 99%R.
    rewrite ideal_advance_below by lra.
    cbn [reference_phase set_generator generator samplePeriod samplerate].
    unfold frequency; cbn; lra.
  - intros context; subst context.
    split; [reflexivity|]; split; [reflexivity|].
    eexists _, _; split;
      [apply callback_refines; [reflexivity | repeat split; vm_compute; discriminate]|].
    vm_compute; repeat split.
Qed.

(** ** The callback at the edges of its domain *)

Section CallbackEdges.

Context {A : Arith}.

Implicit Types (context : AudioContext A) (data pre mid rest : list Float32).
Implicit Types (sample : Float32) (g period : Float64).

Lemma store_past_end data idx sample :
  Z.of_nat (length data) <= idx -> store data idx sample = Fault OutOfBounds.
Proof.
  intros Hidx; unfold store.
  destruct (Z.ltb_spec idx (Z.of_nat (length data))); [lia|].
  rewrite andb_false_r; reflexivity.
Qed.

(** The inner loop runs off the end of an array that is too short. *)
Lemma channel_loop_overruns count : forall nchannels i j sample pre mid,
  0 <= j ->
  0 <= nchannels * i ->
  Z.of_nat (length pre) = nchannels * i + j ->
  (length mid < count)%nat ->
  nchannels * i + j + Z.of_nat (length mid) < INT_MAX ->
  channel_loop count nchannels i j sample (pre ++ mid) = Fault OutOfBounds.
Proof.
  induction count as [|count IH]; intros nchannels i j sample pre mid
    Hj Hi Hpre Hmid Hmax; [lia|].
  cbn [channel_loop].
  rewrite int_mul_in_range by (unfold INT_MIN; lia); cbn [bind].
  rewrite int_add_in_range by (unfold INT_MIN; lia); cbn [bind].
  destruct mid as [|old mid].
  - rewrite store_past_end; [reflexivity|].
    rewrite length_app; cbn [length]; lia.
  - cbn [length] in Hmid, Hmax.
    rewrite (store_after pre old mid) by lia; cbn [bind].
    rewrite int_add_in_range by (unfold INT_MIN; lia); cbn [bind].
    change (pre ++ sample :: mid) with (pre ++ [sample] ++ mid).
    rewrite (app_assoc pre [sample]).
    apply IH; try lia.
    rewrite length_app; cbn [length]; lia.
Qed.

(** So does the outer loop. *)
Lemma frame_loop_overruns count : forall period nchannels i g pre rest,
  0 < nchannels ->
  0 <= i ->
  Z.of_nat (length pre) = nchannels * i ->
  Z.of_nat (length rest) < Z.of_nat count * nchannels ->
  Z.of_nat (length pre + length rest) < INT_MAX ->
  frame_loop count period nchannels i g (pre ++ rest) = Fault OutOfBounds.
Proof.
  induction count as [|count IH]; intros period nchannels i g pre rest
    Hch Hi Hpre Hrest Hmax; [lia|].
  cbn [frame_loop].
  set (sample := sample_at period (advance period g)).
  destruct (Z.lt_ge_cases (Z.of_nat (length rest)) nchannels) as [Hlt|Hge].
  - rewrite channel_loop_overruns; [reflexivity | lia..].
  - rewrite <- (take_drop (Z.to_nat nchannels) rest).
    rewrite (channel_loop_fills (Z.to_nat nchannels) nchannels i 0 sample);
      try nia.
    2: { rewrite length_take; lia. }
    cbn [bind].
    rewrite int_add_in_range by (unfold INT_MIN; nia); cbn [bind].
    rewrite app_assoc.
    apply IH; try lia.
    + rewrite length_app, length_replicate; nia.
    + rewrite length_drop; nia.
    + rewrite length_app, length_replicate, length_drop; lia.
Qed.

(** Without channels the frames only advance the phase. *)
Lemma frame_loop_without_channels count : forall period nchannels i g data,
  nchannels <= 0 ->
  0 <= i ->
  i + Z.of_nat count <= INT_MAX ->
  frame_loop count period nchannels i g data
  = Done (reference_phase period count g, data).
Proof.
  induction count as [|count IH]; intros period nchannels i g data
    Hch Hi Hmax; [reflexivity|].
  cbn [frame_loop].
  replace (Z.to_nat nchannels) with O by lia.
  cbn [channel_loop bind].
  rewrite int_add_in_range by (unfold INT_MIN; lia); cbn [bind].
  rewrite IH by lia; reflexivity.
Qed.

(** The [int] counter [i] cannot count up to a frame count above
    [INT_MAX]. *)
Lemma frame_loop_counter_overflows count : forall period nchannels i g data,
  nchannels <= 0 ->
  0 <= i <= INT_MAX ->
  INT_MAX < i + Z.of_nat count ->
  frame_loop count period nchannels i g data = Fault SignedOverflow.
Proof.
  induction count as [|count IH]; intros period nchannels i g data
    Hch Hi Hmax; [lia|].
  cbn [frame_loop].
  replace (Z.to_nat nchannels) with O by lia.
  cbn [channel_loop bind].
  destruct (Z.eq_dec i INT_MAX) as [->|Hne].
  - reflexivity.
  - rewrite int_add_in_range by (unfold INT_MIN; lia); cbn [bind].
    apply IH; lia.
Qed.

(** A call on a buffer that is too short stores past its end. *)
Lemma short_buffer_faults context flags time bus frames data :
  0 < channels context ->
  0 <= frames ->
  Z.of_nat (length data) < frames * channels context ->
  4 * Z.of_nat (length data) <= UINT32_MAX ->
  callback context flags time bus frames data = Fault OutOfBounds.
Proof.
  intros Hch Hn Hshort Hbytes; unfold callback.
  pose proof (frame_loop_overruns (Z.to_nat frames) (samplePeriod context)
                (channels context) 0 (generator context) [] data) as Hloop.
  cbn [app length] in Hloop.
  rewrite Hloop; [reflexivity | lia | lia | lia | lia |].
  unfold UINT32_MAX, INT_MAX in *; lia.
Qed.

(** X1: the callback does not look at the size of the buffer: given fewer
    slots than [inNumberFrames * channels] it stores past the end of the
    array, however many frames fit. *)
Theorem callback_overruns_short_buffer context flags time bus frames data :
  0 < channels context ->
  0 <= frames ->
  Z.of_nat (length data) < frames * channels context ->
  4 * Z.of_nat (length data) <= UINT32_MAX ->
  callback context flags time bus frames data = Fault OutOfBounds.
Proof.
  intros Hch Hn Hshort Hbytes; unfold callback.
  rewrite <- (app_nil_l data).
  rewrite frame_loop_overruns; cbn [length app];
    unfold UINT32_MAX, INT_MAX in *; try lia.
  reflexivity.
Qed.

(** X2: with a channel count of zero or less the callback stores nothing:
    it returns [noErr], leaves the buffer as it was and still advances the
    phase by [inNumberFrames] frames. *)
Theorem callback_without_channels context flags time bus frames data :
  channels context <= 0 ->
  0 <= frames <= INT_MAX ->
  callback context flags time bus frames data
  = Done (noErr,
          set_generator context
            (reference_phase (samplePeriod context) (Z.to_nat frames)
               (generator context)),
          data).
Proof.
  intros Hch Hn; unfold callback.
  rewrite frame_loop_without_channels by lia; reflexivity.
Qed.

(** X3: the loop counter is an [int] and the frame count a [UInt32]: with
    a channel count of zero or less, when no store can stop the loop, a
    frame count above [INT_MAX] makes the counter overflow. *)
Theorem callback_counter_overflows context flags time bus frames data :
  channels context <= 0 ->
  INT_MAX < frames ->
  callback context flags time bus frames data = Fault SignedOverflow.
Proof.
  intros Hch Hn; unfold callback.
  rewrite frame_loop_counter_overflows; [reflexivity | lia | | ];
    unfold INT_MAX in *; lia.
Qed.

(** X4: with a positive channel count and a buffer whose byte size fits a
    [UInt32], no frame count makes an [int] overflow: the callback returns
    [noErr] when the buffer has a slot for every sample, and otherwise the
    only fault is the store past the end. *)
Theorem callback_int_arithmetic_in_range context flags time bus frames data :
  0 < channels context ->
  0 <= frames ->
  4 * Z.of_nat (length data) <= UINT32_MAX ->
  callback context flags time bus frames data <> Fault SignedOverflow /\
  (frames * channels context <= Z.of_nat (length data) <->
   exists context' out,
     callback context flags time bus frames data
     = Done (noErr, context', out)).
Proof.
  intros Hch Hn Hbytes.
  destruct (Z.le_gt_cases (frames * channels context)
              (Z.of_nat (length data))) as [Hfit|Hshort].
  - assert (adequate context frames data) as Hok by (repeat split; lia).
    rewrite callback_refines by assumption.
    split; [discriminate|].
    split; [intros _; eexists _, _; reflexivity | intros _; exact Hfit].
  - rewrite short_buffer_faults by lia.
    split; [discriminate|].
    split; [lia | intros (context' & out & [=])].
Qed.

End CallbackEdges.

Lemma callback_overruns_short_buffer_witness :
  callback main_context 0 no_time 0 3 (silence 5) = Fault OutOfBounds.
Proof.
  apply (callback_overruns_short_buffer main_context 0 no_time 0 3 (silence 5));
    vm_compute; reflexivity || discriminate.
Defined.

Lemma callback_without_channels_witness :
  callback (Build_AudioContext Machine 0%float 44100%float 0 0)
    0 no_time 0 3 (silence 2)
  = Done (noErr,
          set_generator (Build_AudioContext Machine 0%float 44100%float 0 0)
            (reference_phase
               (samplePeriod
                  (Build_AudioContext Machine 0%float 44100%float 0 0))
               (Z.to_nat 3) 0%float),
          silence 2).
Proof.
  apply (callback_without_channels
           (Build_AudioContext Machine 0%float 44100%float 0 0)
           0 no_time 0 3 (silence 2)).
  - vm_compute; discriminate.
  - split; vm_compute; discriminate.
Defined.

Lemma callback_counter_overflows_witness :
  callback (Build_AudioContext Machine 0%float 44100%float 0 0)
    0 no_time 0 2147483648 (silence 2)
  = Fault SignedOverflow.
Proof.
  apply (callback_counter_overflows
           (Build_AudioContext Machine 0%float 44100%float 0 0)
           0 no_time 0 2147483648 (silence 2)).
  - vm_compute; discriminate.
  - reflexivity.
Defined.

Lemma callback_int_arithmetic_in_range_witness :
  callback main_context 0 no_time 0 3 (silence 6) <> Fault SignedOverflow /\
  (3 * channels main_context <= Z.of_nat (length (silence 6)) <->
   exists context' out,
     callback main_context 0 no_time 0 3 (silence 6)
     = Done (noErr, context', out)).
Proof.
  apply (callback_int_arithmetic_in_range main_context 0 no_time 0 3
           (silence 6)).
  - reflexivity.
  - vm_compute; discriminate.
  - vm_compute; discriminate.
Defined.

(** ** The callback in exact arithmetic: a sine of 440 Hz *)

Section IdealSine.

Local Open Scope R_scope.

Implicit Types (P g : R) (context : AudioContext Ideal).

(** The phase after [n] frames is the phase before plus [n], less one
    period for each frame that subtracted it. *)
Lemma ideal_phase_closed_form P n : forall g,
  reference_phase (A:=Ideal) P n g
  = g + IZR (Z.of_nat n) - INR (wrap_count (A:=Ideal) P n g) * P.
Proof.
  induction n as [|n IH]; intros g.
  - change (Z.of_nat 0) with 0%Z; cbn; lra.
  - rewrite reference_phase_step, IH, Nat2Z.inj_succ, succ_IZR.
    cbn [wrap_count]; rewrite plus_INR.
    unfold wraps, advance; cbn; unfold Rgtb.
    destruct (Rgt_dec (g + 1) P); cbn [INR]; lra.
Qed.

(** Whole periods do not show in the sample. *)
Lemma ideal_sample_closed_form P x (k : nat) :
  P <> 0 ->
  sample_at (A:=Ideal) P (x - INR k * P) = sin (2 * PI * x / P).
Proof.
  intros HP; unfold sample_at; cbn.
  rewrite <- (sin_period (2 * PI * (x - INR k * P) / P) k).
  f_equal; field; exact HP.
Qed.

(** In exact arithmetic and for any sample rate but 0, the samples a
    well-formed call stores are those of a sine of 440 Hz: every slot of
    the [f]-th frame of the call holds [sin (2 pi 440 (g + f) / rate)],
    where [g] is the phase the call starts from, whether or not the phase
    went round in between; and the phase the call leaves is [g] plus the
    frame count, less one period for each frame that subtracted it. *)
Lemma ideal_callback_renders_440Hz_sine context flags time bus frames data :
  (0 < channels context)%Z ->
  adequate context frames data ->
  samplerate context <> 0 ->
  exists context' out,
    callback context flags time bus frames data = Done (noErr, context', out)
    /\ (forall k : nat,
          (Z.of_nat k < frames * channels context)%Z ->
          out !! k
          = Some (sin (2 * PI * 440
                       * (generator context
                          + IZR (Z.of_nat
                                   (S (k / Z.to_nat (channels context)))))
                       / samplerate context)))
    /\ generator context'
       = generator context + IZR frames
         - INR (wrap_count (samplePeriod context) (Z.to_nat frames)
                  (generator context))
           * (samplerate context / 440).
Proof.
  intros Hch Hok Hrate; pose proof Hok as (Hn & Hfit & _).
  rewrite callback_refines by assumption.
  eexists _, _; split; [reflexivity|].
  assert (samplePeriod context = samplerate context / 440) as HP
    by reflexivity.
  split.
  - intros k Hk.
    pose proof (reference_buffer_length (A:=Ideal) (samplePeriod context)
                  (Z.to_nat (channels context)) (Z.to_nat frames)
                  (generator context)) as Hlen.
    pose proof (reference_buffer_lookup (A:=Ideal) (samplePeriod context)
                  (Z.to_nat (channels context)) (Z.to_nat frames)
                  (generator context) k ltac:(nia)) as Hslot.
    etransitivity;
      [apply lookup_app_l; eapply Nat.lt_le_trans;
       [| apply Nat.eq_le_incl; symmetry; exact Hlen]; nia|].
    etransitivity; [exact Hslot|].
    rewrite ideal_phase_closed_form, HP.
    rewrite ideal_sample_closed_form by lra.
    do 2 f_equal; field; exact Hrate.
  - cbn [generator set_generator].
    rewrite ideal_phase_closed_form, HP, Z2Nat.id by exact Hn.
    reflexivity.
Qed.

End IdealSine.

(** ** Starting and stopping *)

Section LifecycleProperties.

Context {A : Arith}.

Implicit Types (os : OS A) (context : AudioContext A) (log : list (event A)).

(** Split on every test a run of [startAudio] makes. *)
Ltac start_cases :=
  unfold startAudio, and_then, call_status, call, checked, ret, int_mul;
  repeat match goal with
    | |- context [if ?b then _ else _] => destruct b eqn:?
    end.

(** X6: [startAudio] assigns no field of the context but the audio-unit
    handle: whatever the operating system answers and whatever it returns,
    phase, sample rate and channel count are as they were. *)
Theorem startAudio_keeps_generation_state os context_ptr context log
    code context' log' :
  startAudio os context_ptr context log = Done (code, context', log') ->
  generation_state context' = generation_state context.
Proof.
  start_cases; intros [= <- <- <-] || discriminate; reflexivity.
Qed.

(** Read the answer to the call at hand off what is known. *)
Ltac tally :=
  cbn [take app succeeded Z.of_nat Z.eqb Pos.of_succ_nat Pos.succ Pos.eqb
         negb];
  rewrite ?app_nil_r;
  repeat match goal with
    | H : (_ =? 0) = _ |- _ => rewrite H; clear H
    end;
  reflexivity.

(** Go on to the next call of a run, with the log in one piece. *)
Ltac next_call :=
  cbn [negb]; cbv beta iota; repeat rewrite <- app_assoc; cbn [app].



(** X9: the stream format [startAudio] sets is the layout [callback]
    writes: for a positive channel count, 32-bit floating-point linear PCM
    at the sample rate of the context, one frame per packet, [channels]
    channels per frame and [4 * channels] bytes per frame and per
    packet. *)
Theorem startAudio_sets_callback_layout os context_ptr context log
    code context' log' unit id scope element streamFormat :
  startAudio os context_ptr context log = Done (code, context', log') ->
  In (AudioUnitSetProperty unit id scope element (StreamFormat streamFormat))
    (drop (length log) log') ->
  0 < channels context ->
  streamFormat
  = Build_AudioStreamBasicDescription A (samplerate context)
      kAudioFormatLinearPCM kAudioFormatFlagIsFloat
      (4 * channels context) 1 (4 * channels context) (channels context) 32.
Proof.
  intros Hrun Hin Hch; revert Hrun Hin.
  unfold startAudio, and_then, call_status, call, checked, ret, int_mul.
  unfold fourBytesPerFloat, eightBitsPerByte.
  cbn [set_audioUnit channels samplerate].
  change (in_int (4 * 8)) with true; cbv iota.
  assert (in_int (channels context * 4) = true ->
          to_UInt32 (channels context * 4) = 4 * channels context /\
          to_UInt32 (channels context) = channels context) as Hsmall.
  { unfold in_int, to_UInt32, INT_MIN, INT_MAX, UINT32_MAX.
    intros [_ Hle%Z.leb_le]%andb_prop.
    rewrite !Z.mod_small by lia; lia. }
  repeat match goal with
    | |- context [if ?b then _ else _] => destruct b eqn:?
    end;
    intros [= <- <- <-] || discriminate;
    rewrite <- ?app_assoc, drop_app_length; cbn [app In];
    intros Hin; repeat destruct Hin as [Hin|Hin];
    try discriminate Hin; try contradiction;
    injection Hin as <- <- <- <- <-;
    destruct (Hsmall eq_refl) as [-> ->]; reflexivity.
Qed.

(** What [stopAudio] does. *)
Lemma stopAudio_run os context log :
  stopAudio os context log
  = Done (set_audioUnit context 0,
          log ++ (if audioUnit context =? 0 then []
                  else [AudioOutputUnitStop (audioUnit context)])).
Proof.
  unfold stopAudio, and_then, call_status, call, ret.
  destruct (audioUnit context =? 0) eqn:Hnull; cbn [negb].
  - apply Z.eqb_eq in Hnull; rewrite app_nil_r.
    destruct context; cbn in *; subst; reflexivity.
  - reflexivity.
Qed.

(** X10: [stopAudio] can be called twice: the first call leaves [NULL] in
    the context, keeps the other fields and makes one call, stopping the
    audio unit, when the context held one, and no call when it held
    [NULL], whatever status the operating system answers; a second call
    changes nothing and makes no call. *)
Theorem stopAudio_idempotent os context log :
  let stopped := set_audioUnit context 0 in
  let log1 :=
    log ++ (if audioUnit context =? 0 then []
            else [AudioOutputUnitStop (audioUnit context)]) in
  stopAudio os context log = Done (stopped, log1) /\
  stopAudio os stopped log1 = Done (stopped, log1).
Proof.
  intros stopped log1; subst stopped log1; split.
  - unfold stopAudio, and_then, call_status, call, ret.
    destruct (audioUnit context =? 0) eqn:Hnull; cbn [negb]; [|reflexivity].
    apply Z.eqb_eq in Hnull; rewrite app_nil_r.
    destruct context; cbn in *; subst; reflexivity.
  - unfold stopAudio, ret; cbn [audioUnit set_audioUnit Z.eqb negb].
    reflexivity.
Qed.

(** X11: after [startAudio] has returned 0 with an audio unit in the
    context, [stopAudio] makes one call: it stops that unit, the one the
    last call of [startAudio] started. *)
Theorem stopAudio_stops_the_started_unit os context_ptr context log
    context' log' :
  startAudio os context_ptr context log = Done (0, context', log') ->
  audioUnit context' <> 0 ->
  (exists earlier,
      log' = earlier ++ [AudioOutputUnitStart (audioUnit context')]) /\
  stopAudio os context' log'
  = Done (set_audioUnit context' 0,
          log' ++ [AudioOutputUnitStop (audioUnit context')]).
Proof.
  intros Hrun Hunit; split.
  - revert Hrun; start_cases; intros [= <- <-].
    eexists; reflexivity.
  - rewrite stopAudio_run.
    apply Z.eqb_neq in Hunit; rewrite Hunit; reflexivity.
Qed.

(** The loop of [main] sleeps once for every test that reads [false]. *)
Lemma wait_for_stop_signalled (k : nat) rest : forall log,
  wait_for_stop (replicate k false ++ true :: rest) log
  = Done (true, log ++ replicate k (usleep 500000)).
Proof.
  induction k as [|k IH]; intros log; cbn [replicate app wait_for_stop].
  - unfold ret; rewrite app_nil_r; reflexivity.
  - unfold and_then, call; rewrite IH, <- app_assoc; reflexivity.
Qed.

Lemma wait_for_stop_waiting (k : nat) : forall log,
  wait_for_stop (replicate k false) log
  = Done (false, log ++ replicate k (usleep 500000)).
Proof.
  induction k as [|k IH]; intros log; cbn [replicate wait_for_stop].
  - unfold ret; rewrite app_nil_r; reflexivity.
  - unfold and_then, call; rewrite IH, <- app_assoc; reflexivity.
Qed.

(** X12: when [startAudio] fails, [main] prints its message and returns
    [EXIT_FAILURE] at once: it installs no signal handler and does not
    wait, and it makes no call on the audio unit, not even when the unit
    had been created before the failure. *)
Theorem main_reports_start_failure os context_ptr garbage reads log
    code context' log' :
  startAudio os context_ptr
    (Build_AudioContext A (f64_of_int 0) (f64_of_int 44100) 2 garbage) log
  = Done (code, context', log') ->
  code <> 0 ->
  main os context_ptr garbage reads log
  = Done (Some EXIT_FAILURE, log' ++ [printf failed_to_start]).
Proof.
  intros Hrun Hcode; unfold main, and_then.
  rewrite Hrun; cbn [fst snd].
  apply Z.eqb_neq in Hcode; rewrite Hcode; reflexivity.
Qed.

(** X13: when [startAudio] succeeds, [main] installs [handleStopSignal]
    for [SIGINT], sleeps half a second for every test of [shouldStop] that
    reads [false], and on the first that reads [true] stops the audio unit
    and returns [EXIT_SUCCESS]. *)
Theorem main_stops_after_signal os context_ptr garbage (k : nat) rest log
    context' log' :
  startAudio os context_ptr
    (Build_AudioContext A (f64_of_int 0) (f64_of_int 44100) 2 garbage) log
  = Done (0, context', log') ->
  main os context_ptr garbage (replicate k false ++ true :: rest) log
  = Done (Some EXIT_SUCCESS,
          log' ++ signal SIGINT proc_handleStopSignal
               :: replicate k (usleep 500000)
               ++ (if audioUnit context' =? 0 then []
                   else [AudioOutputUnitStop (audioUnit context')])).
Proof.
  intros Hrun; unfold main, and_then.
  rewrite Hrun; cbn [fst snd Z.eqb negb].
  unfold call at 1; rewrite wait_for_stop_signalled, stopAudio_run.
  unfold ret; rewrite <- !app_assoc; reflexivity.
Qed.

(** X14: as long as no test of [shouldStop] has read [true], [main] has
    not returned and has not stopped the audio unit: all it has done since
    the start is to install the handler and to sleep. *)
Theorem main_waits_for_signal os context_ptr garbage (k : nat) log
    context' log' :
  startAudio os context_ptr
    (Build_AudioContext A (f64_of_int 0) (f64_of_int 44100) 2 garbage) log
  = Done (0, context', log') ->
  main os context_ptr garbage (replicate k false) log
  = Done (None,
          log' ++ signal SIGINT proc_handleStopSignal
               :: replicate k (usleep 500000)).
Proof.
  intros Hrun; unfold main, and_then.
  rewrite Hrun; cbn [fst snd Z.eqb negb].
  unfold call at 1; rewrite wait_for_stop_waiting.
  unfold ret; rewrite <- !app_assoc; reflexivity.
Qed.

(** X15: [startAudio] does not check the channel count.  When
    [4 * channels] does not fit an [int]: if the operating system grants
    the first three calls (the default output, its instance, the
    registration of the callback), the multiplication overflows; if not,
    [startAudio] returns 1, 2 or 3 after as many calls, the last of which
    was not granted.  Either way it sets no stream format. *)
Theorem startAudio_overflows_on_channel_count os context_ptr context log :
  ~ (INT_MIN <= channels context * 4 <= INT_MAX) ->
  let desc :=
    {| componentType := kAudioUnitType_Output;
       componentSubType := kAudioUnitSubType_DefaultOutput;
       componentManufacturer := kAudioUnitManufacturer_Apple;
       componentFlags := 0;
       componentFlagsMask := 0 |} in
  let find := AudioComponentFindNext 0 desc in
  let component := found_component os log desc in
  let new := AudioComponentInstanceNew component in
  let created :=
    new_instance os (log ++ [find]) component (audioUnit context) in
  let register :=
    AudioUnitSetProperty (snd created)
      kAudioUnitProperty_SetRenderCallback kAudioUnitScope_Input 0
      (RenderCallback
         {| inputProc := proc_callback; inputProcRefCon := context_ptr |}) in
  if succeeded os (audioUnit context) log find
     && succeeded os (audioUnit context) (log ++ [find]) new
     && succeeded os (audioUnit context) (log ++ [find; new]) register
  then startAudio os context_ptr context log = Fault SignedOverflow
  else
    exists code context',
      startAudio os context_ptr context log
      = Done (code, context',
              log ++ take (Z.to_nat code) [find; new; register]) /\
      1 <= code <= 3 /\
      forall (i : nat) e,
        take (Z.to_nat code) [find; new; register] !! i = Some e ->
        succeeded os (audioUnit context)
          (log ++ take i [find; new; register]) e
        = negb (Z.of_nat (S i) =? code).
Proof.
  intros Hrange desc find component new created register.
  assert (in_int (channels context * 4) = false) as Hint.
  { unfold in_int.
    destruct (Z.leb_spec INT_MIN (channels context * 4)),
      (Z.leb_spec (channels context * 4) INT_MAX); try lia; reflexivity. }
  change (succeeded os (audioUnit context) log find)
    with (negb (component =? 0)).
  change (succeeded os (audioUnit context) (log ++ [find]) new)
    with (fst created =? 0).
  change (succeeded os (audioUnit context) (log ++ [find; new]) register)
    with (status_of os (log ++ [find; new]) register =? 0).
  unfold startAudio, and_then, call_status, call, checked, ret, int_mul.
  unfold fourBytesPerFloat.
  cbn [set_audioUnit channels audioUnit samplerate]; rewrite Hint.
  fold desc; fold find; fold component.
  destruct (component =? 0) eqn:Hfind; next_call; cbn [negb andb].
  { exists 1, context; split; [reflexivity|]; split; [lia|].
    intros [|i] e [=]; subst e; subst find component; tally. }
  fold new; fold created.
  destruct (fst created =? 0) eqn:Hnew; next_call; cbn [negb andb].
  2: { exists 2, (set_audioUnit context (snd created)).
       split; [reflexivity|]; split; [lia|].
       intros [|[|i]] e [=]; subst e; subst find new created component; tally. }
  fold register.
  destruct (status_of os _ register =? 0) eqn:Hreg; next_call;
    cbn [negb andb].
  { reflexivity. }
  exists 3, (set_audioUnit context (snd created)).
  split; [reflexivity|]; split; [lia|].
  intros [|[|[|i]]] e [=]; subst e; subst find new register created component; tally.
Qed.

End LifecycleProperties.

Lemma startAudio_keeps_generation_state_witness :
  generation_state started_context = generation_state main_context.
Proof.
  apply (startAudio_keeps_generation_state os_failing_initialize 4096
           main_context [] 5 started_context calls_up_to_initialize).
  reflexivity.
Defined.



Lemma startAudio_sets_callback_layout_witness :
  stereo_format
  = Build_AudioStreamBasicDescription Machine (samplerate main_context)
      kAudioFormatLinearPCM kAudioFormatFlagIsFloat
      (4 * channels main_context) 1 (4 * channels main_context)
      (channels main_context) 32.
Proof.
  apply (startAudio_sets_callback_layout os_failing_initialize 4096
           main_context [] 5 started_context calls_up_to_initialize
           42 kAudioUnitProperty_StreamFormat kAudioUnitScope_Input 0).
  - reflexivity.
  - do 3 right; left; reflexivity.
  - reflexivity.
Defined.

Lemma stopAudio_stops_the_started_unit_witness :
  (exists earlier,
      calls_up_to_initialize ++ [AudioOutputUnitStart 42]
      = earlier ++ [AudioOutputUnitStart (audioUnit started_context)]) /\
  stopAudio willing_os started_context
    (calls_up_to_initialize ++ [AudioOutputUnitStart 42])
  = Done (set_audioUnit started_context 0,
          (calls_up_to_initialize ++ [AudioOutputUnitStart 42])
            ++ [AudioOutputUnitStop (audioUnit started_context)]).
Proof.
  apply (stopAudio_stops_the_started_unit willing_os 4096 main_context []).
  - reflexivity.
  - discriminate.
Defined.

Lemma main_reports_start_failure_witness :
  main os_failing_initialize 4096 0 [false; true] []
  = Done (Some EXIT_FAILURE,
          calls_up_to_initialize ++ [printf failed_to_start]).
Proof.
  apply (main_reports_start_failure os_failing_initialize 4096 0
           [false; true] [] 5 started_context).
  - reflexivity.
  - discriminate.
Defined.

Lemma main_stops_after_signal_witness :
  main willing_os 4096 0 (replicate 2 false ++ [true; false]) []
  = Done (Some EXIT_SUCCESS,
          (calls_up_to_initialize ++ [AudioOutputUnitStart 42])
            ++ signal SIGINT proc_handleStopSignal
            :: replicate 2 (usleep 500000)
            ++ (if audioUnit started_context =? 0 then []
                else [AudioOutputUnitStop (audioUnit started_context)])).
Proof.
  apply (main_stops_after_signal willing_os 4096 0 2 [false] []
           started_context).
  reflexivity.
Defined.

Lemma main_waits_for_signal_witness :
  main willing_os 4096 0 (replicate 3 false) []
  = Done (None,
          (calls_up_to_initialize ++ [AudioOutputUnitStart 42])
            ++ signal SIGINT proc_handleStopSignal
            :: replicate 3 (usleep 500000)).
Proof.
  apply (main_waits_for_signal willing_os 4096 0 3 [] started_context).
  reflexivity.
Defined.

Lemma startAudio_overflows_on_channel_count_witness :
  startAudio willing_os 4096
    (Build_AudioContext Machine 0%float 44100%float 1073741824 0) []
  = Fault SignedOverflow.
Proof.
  apply (startAudio_overflows_on_channel_count willing_os 4096
           (Build_AudioContext Machine 0%float 44100%float 1073741824 0) []).
  vm_compute; intros [_ H]; apply H; reflexivity.
Defined.

(** ** The range of the samples in binary64 arithmetic *)




